(** * Verification of the TTL-aware LRU cache (backend/src/utils/LRUCache.ts)

    The cache is a [Map<string, CacheNode>] index over an intrusive doubly
    linked list of node objects.  Node objects are shared between the index,
    the [head] / [tail] fields and the [prev] / [next] links of their
    neighbours, so the embedding keeps an explicit store of allocated nodes
    and lets every field hold a reference into it. *)

From Stdlib Require Import ZArith QArith Qround.
From stdpp Require Import gmap strings list fin_maps sorting.

Local Open Scope Z_scope.
Set Warnings "-clear-no-such-hyp".

(** ** JavaScript numbers

    Time stamps, counters and durations are integers ([Date.now()] returns whole
    milliseconds), so they are modelled in [Z].  The only place where the
    source leaves the integers is [calculateAverageResponseTime], which
    divides and calls [Math.round]; these operations are kept abstract. *)

Class Number (N : Type) := {
  of_Z : Z → N;
  num_div : N → N → N;
  num_mul : N → N → N;
  Math_round : N → N
}.

(** Exact rational arithmetic as one instance; [Math.round] rounds half up. *)
#[export] Instance Q_Number : Number Q := {|
  of_Z := inject_Z;
  num_div := Qdiv;
  num_mul := Qmult;
  Math_round := λ x, inject_Z (Qfloor (Qplus x (Qmake 1 2)))
|}.

Module LRU.

(** A reference to a node object: its index in the store. *)
Abbreviation ref := nat (only parsing).

(** The outcome of evaluating a [new] expression. *)
Inductive Outcome (A : Type) : Type :=
| Returns (a : A)
| Throws.
#[global] Arguments Returns {A} a.
#[global] Arguments Throws {A}.

Section cache.
Context {T N : Type} `{Number N}.

(** ** Data model *)

Record CacheNode := mkNode {
  key : string;
  value : T;
  timestamp : Z;
  prev : option ref;
  next : option ref
}.

Record CacheStats := mkStats {
  hits : Z;
  misses : Z;
  size : Z;
  averageResponseTime : N
}.

Record LRUCache := mkCache {
  capacity : Z;
  cache : gmap string ref;
  head : option ref;
  tail : option ref;
  ttl : Z;
  stats : CacheStats;
  responseTimes : list Z;
  (** the node objects allocated so far *)
  store : list CacheNode
}.

(** Field assignments on a node object. *)
Definition set_value (v : T) (n : CacheNode) : CacheNode :=
  mkNode (key n) v (timestamp n) (prev n) (next n).
Definition set_timestamp (t : Z) (n : CacheNode) : CacheNode :=
  mkNode (key n) (value n) t (prev n) (next n).
Definition set_prev (p : option ref) (n : CacheNode) : CacheNode :=
  mkNode (key n) (value n) (timestamp n) p (next n).
Definition set_next (q : option ref) (n : CacheNode) : CacheNode :=
  mkNode (key n) (value n) (timestamp n) (prev n) q.

(** Field assignments on [this]. *)
Definition upd_cache (f : gmap string ref → gmap string ref) (c : LRUCache) : LRUCache :=
  mkCache (capacity c) (f (cache c)) (head c) (tail c) (ttl c) (stats c)
          (responseTimes c) (store c).
Definition upd_head (h : option ref) (c : LRUCache) : LRUCache :=
  mkCache (capacity c) (cache c) h (tail c) (ttl c) (stats c)
          (responseTimes c) (store c).
Definition upd_tail (t : option ref) (c : LRUCache) : LRUCache :=
  mkCache (capacity c) (cache c) (head c) t (ttl c) (stats c)
          (responseTimes c) (store c).
Definition upd_stats (f : CacheStats → CacheStats) (c : LRUCache) : LRUCache :=
  mkCache (capacity c) (cache c) (head c) (tail c) (ttl c) (f (stats c))
          (responseTimes c) (store c).
Definition upd_responseTimes (r : list Z) (c : LRUCache) : LRUCache :=
  mkCache (capacity c) (cache c) (head c) (tail c) (ttl c) (stats c) r (store c).
Definition upd_store (f : list CacheNode → list CacheNode) (c : LRUCache) : LRUCache :=
  mkCache (capacity c) (cache c) (head c) (tail c) (ttl c) (stats c)
          (responseTimes c) (f (store c)).

(** [node.f] for a reference [node] and an optional field [f]. *)
Definition field {A} (f : CacheNode → option A) (node : ref) (c : LRUCache) : option A :=
  store c !! node ≫= f.

(** [o.f = v] on the object behind [node]. *)
Definition assign (f : CacheNode → CacheNode) (node : ref) (c : LRUCache) : LRUCache :=
  upd_store (alter f node) c.

Definition hits_incr (s : CacheStats) : CacheStats :=
  mkStats (hits s + 1) (misses s) (size s) (averageResponseTime s).
Definition misses_incr (s : CacheStats) : CacheStats :=
  mkStats (hits s) (misses s + 1) (size s) (averageResponseTime s).
Definition size_incr (s : CacheStats) : CacheStats :=
  mkStats (hits s) (misses s) (size s + 1) (averageResponseTime s).
Definition size_decr (s : CacheStats) : CacheStats :=
  mkStats (hits s) (misses s) (size s - 1) (averageResponseTime s).
Definition size_reset (s : CacheStats) : CacheStats :=
  mkStats (hits s) (misses s) 0 (averageResponseTime s).

(** ** Operations *)

(** [constructor(capacity, ttlSeconds = 60)].  No argument is inspected; the
    interval timer it registers only ever calls [cleanupExpired]. *)
Definition constructor (capacity : Z) (ttlSeconds : option Z) : LRUCache :=
  mkCache capacity ∅ None None (default 60 ttlSeconds * 1000)
          (mkStats 0 0 0 (of_Z 0)) [] [].

(** [new LRUCache(capacity, ttlSeconds)]: the body of the constructor has no
    [throw] and calls nothing that throws, so the expression evaluates to
    the instance. *)
Definition new_LRUCache (capacity : Z) (ttlSeconds : option Z) : Outcome LRUCache :=
  Returns (constructor capacity ttlSeconds).

Definition addToHead (node : ref) (c : LRUCache) : LRUCache :=
  let c := assign (set_prev None) node c in
  let c := assign (set_next (head c)) node c in
  let c := match head c with
           | Some h => assign (set_prev (Some node)) h c
           | None => c
           end in
  let c := upd_head (Some node) c in
  match tail c with
  | None => upd_tail (Some node) c
  | Some _ => c
  end.

Definition removeNode (node : ref) (c : LRUCache) : LRUCache :=
  let c := match field prev node c with
           | Some p => assign (set_next (field next node c)) p c
           | None => upd_head (field next node c) c
           end in
  match field next node c with
  | Some q => assign (set_prev (field prev node c)) q c
  | None => upd_tail (field prev node c) c
  end.

Definition moveToHead (node : ref) (c : LRUCache) : LRUCache :=
  addToHead node (removeNode node c).

Definition removeTail (c : LRUCache) : LRUCache :=
  match tail c with
  | Some t =>
      match store c !! t with
      | Some n =>
          let k := key n in
          let c := removeNode t c in
          let c := upd_cache (base.delete k) c in
          upd_stats size_decr c
      | None => c
      end
  | None => c
  end.

Definition recordResponseTime (time : Z) (c : LRUCache) : LRUCache :=
  let r := responseTimes c ++ [time] in
  upd_responseTimes (if (100 <? length r)%nat then List.tl r else r) c.

Definition calculateAverageResponseTime (c : LRUCache) : N :=
  if (length (responseTimes c) =? 0)%nat then of_Z 0
  else
    let sum := foldl Z.add 0 (responseTimes c) in
    num_div
      (Math_round
         (num_mul (num_div (of_Z sum) (of_Z (Z.of_nat (length (responseTimes c)))))
                  (of_Z 100)))
      (of_Z 100).

Definition delete (key : string) (c : LRUCache) : bool * LRUCache :=
  match cache c !! key with
  | None => (false, c)
  | Some node =>
      let c := removeNode node c in
      let c := upd_cache (base.delete key) c in
      (true, upd_stats size_decr c)
  end.

(** [get]: [now i] is the value returned by the [i]-th call of [Date.now()]
    made during this call of [get]. *)
Definition get (now : nat → Z) (key : string) (c : LRUCache) : option T * LRUCache :=
  let startTime := now 0%nat in
  match cache c !! key with
  | None =>
      let c := upd_stats misses_incr c in
      (None, recordResponseTime (now 1%nat - startTime) c)
  | Some node =>
      match store c !! node with
      | Some n =>
          if now 1%nat - timestamp n >? ttl c then
            let c := (delete key c).2 in
            let c := upd_stats misses_incr c in
            (None, recordResponseTime (now 2%nat - startTime) c)
          else
            let c := moveToHead node c in
            let c := upd_stats hits_incr c in
            let c := recordResponseTime (now 2%nat - startTime) c in
            (value <$> store c !! node, c)
      | None => (None, c)
      end
  end.

(** [set]: [now] is the value of the single [Date.now()] call. *)
Definition set (now : Z) (key : string) (value : T) (c : LRUCache) : LRUCache :=
  match cache c !! key with
  | Some existing =>
      let c := assign (set_value value) existing c in
      let c := assign (set_timestamp now) existing c in
      moveToHead existing c
  | None =>
      let newNode := length (store c) in
      let c := upd_store (λ s, s ++ [mkNode key value now None None]) c in
      let c := upd_cache (insert key newNode) c in
      let c := addToHead newNode c in
      let c := upd_stats size_incr c in
      if Z.of_nat (base.size (cache c)) >? capacity c
      then removeTail c else c
  end.

Definition clear (c : LRUCache) : LRUCache :=
  let c := upd_cache (λ _, ∅) c in
  let c := upd_head None c in
  let c := upd_tail None c in
  let c := upd_stats size_reset c in
  upd_responseTimes [] c.

Definition getStats (c : LRUCache) : CacheStats :=
  mkStats (hits (stats c)) (misses (stats c)) (size (stats c))
          (calculateAverageResponseTime c).

(** The test of the sweep, [now - node.timestamp > this.ttl]. *)
Definition expired (now : Z) (c : LRUCache) (node : ref) : bool :=
  match store c !! node with
  | Some n => now - timestamp n >? ttl c
  | None => false
  end.

(** The keys collected by the first loop of [cleanupExpired].  JavaScript
    enumerates a [Map] in insertion order, [map_to_list] in an order of its
    own; the keys are distinct either way, and the facts proved about the
    second loop ([deleteAll]) hold for every order. *)
Definition expiredKeys (now : Z) (c : LRUCache) : list string :=
  (filter (λ kn, expired now c kn.2 = true) (map_to_list (cache c))).*1.

(** [keys.forEach(key => this.delete(key))]. *)
Definition deleteAll (keys : list string) (c : LRUCache) : LRUCache :=
  foldl (λ c k, (delete k c).2) c keys.

(** [cleanupExpired], run by the interval timer: collect the expired keys,
    then delete them one by one. *)
Definition cleanupExpired (now : Z) (c : LRUCache) : LRUCache :=
  deleteAll (expiredKeys now c) c.

(** A run of [get] calls, collecting the results. *)
Fixpoint get_results (c : LRUCache) (calls : list ((nat → Z) * string))
    : list (option T) :=
  match calls with
  | [] => []
  | (now, k) :: calls' => (get now k c).1 :: get_results (get now k c).2 calls'
  end.

(** ** The recency list

    [dllseg h prv cur ls lst nxt]: following [next] from [cur] visits exactly
    the nodes [ls] and then reaches [nxt]; the [prev] link of the first node
    is [prv], every other [prev] link points to the node before, and [lst]
    is the last node visited ([prv] when [ls] is empty). *)
Fixpoint dllseg (h : list CacheNode) (prv cur : option ref) (ls : list ref)
    (lst nxt : option ref) : Prop :=
  match ls with
  | [] => cur = nxt ∧ lst = prv
  | l :: ls' =>
      cur = Some l ∧
      ∃ n, h !! l = Some n ∧ prev n = prv ∧ dllseg h (Some l) (next n) ls' lst nxt
  end.

(** The whole list of a cache, from [head] to [tail]. *)
Definition recency_list (c : LRUCache) (ls : list ref) : Prop :=
  dllseg (store c) None (head c) ls (tail c) None ∧ NoDup ls.

(** What a node holds besides its links. *)
Record Entry := mkEntry { ekey : string; evalue : T; etimestamp : Z }.

Definition entry_of (n : CacheNode) : Entry :=
  mkEntry (key n) (value n) (timestamp n).

(** [holds c l e]: the node behind [l] carries the entry [e]. *)
Definition holds (c : LRUCache) (l : ref) (e : Entry) : Prop :=
  entry_of <$> store c !! l = Some e.

(** The index and the list hold the same nodes: a key is indexed to [l]
    exactly when [l] is on the list and carries that key. *)
Definition index_matches (c : LRUCache) (ls : list ref) : Prop :=
  ∀ k l, cache c !! k = Some l ↔ l ∈ ls ∧ key <$> store c !! l = Some k.

(** The representation invariant: [ls] are the nodes from most to least
    recently used and [es] the entries they carry. *)
Record Inv (c : LRUCache) (ls : list ref) (es : list Entry) : Prop := mkInv {
  inv_list : recency_list c ls;
  inv_index : index_matches c ls;
  inv_entries : Forall2 (holds c) ls es;
  inv_count : base.size (cache c) = length ls;
  inv_size : size (stats c) = Z.of_nat (base.size (cache c))
}.

(** [stored c k v t]: the key [k] is indexed, to a node that carries the
    value [v] and the time stamp [t]. *)
Definition stored (c : LRUCache) (k : string) (v : T) (t : Z) : Prop :=
  ∃ l, cache c !! k = Some l ∧ entry_of <$> store c !! l = Some (mkEntry k v t).

(** A node update that leaves the entry of the node alone. *)
Definition keeps_entry (f : CacheNode → CacheNode) : Prop :=
  ∀ n, entry_of (f n) = entry_of n.

(** [links_only c c']: [c'] differs from [c] at most in [head], [tail] and
    the links of the nodes. *)
Definition links_only (c c' : LRUCache) : Prop :=
  capacity c' = capacity c ∧ cache c' = cache c ∧ ttl c' = ttl c ∧
  stats c' = stats c ∧ responseTimes c' = responseTimes c ∧
  length (store c') = length (store c) ∧
  ∀ x, entry_of <$> store c' !! x = entry_of <$> store c !! x.

(** ** Reference model

    The entries of the cache as a plain list, most recently used first.  The
    operations below act on that list alone; the linked structure is shown
    to follow them step by step. *)

Definition has_key (k : string) (e : Entry) : Prop := ekey e = k.

#[local] Instance has_key_dec k e : Decision (has_key k e).
Proof. unfold has_key. apply _. Defined.

Definition without (k : string) (es : list Entry) : list Entry :=
  filter (λ e, ¬ has_key k e) es.

Definition find_key (k : string) (es : list Entry) : option Entry :=
  snd <$> list_find (has_key k) es.

Definition m_get (now1 ttl : Z) (k : string) (es : list Entry)
    : option T * list Entry :=
  match find_key k es with
  | None => (None, es)
  | Some e =>
      if now1 - etimestamp e >? ttl then (None, without k es)
      else (Some (evalue e), e :: without k es)
  end.

Definition m_set (capacity now : Z) (k : string) (v : T) (es : list Entry)
    : list Entry :=
  match find_key k es with
  | Some _ => mkEntry k v now :: without k es
  | None =>
      let es' := mkEntry k v now :: es in
      if Z.of_nat (length es') >? capacity then removelast es' else es'
  end.

Definition m_delete (k : string) (es : list Entry) : bool * list Entry :=
  (bool_decide (is_Some (find_key k es)), without k es).

Definition m_sweep (now ttl : Z) (es : list Entry) : list Entry :=
  filter (λ e, (now - etimestamp e >? ttl) = false) es.

(** ** Traces of operations *)

Inductive Op :=
| OGet (now : nat → Z) (k : string)
| OSet (now : Z) (k : string) (v : T)
| ODelete (k : string)
| OClear
| OSweep (now : Z).

Definition step (c : LRUCache) (o : Op) : LRUCache :=
  match o with
  | OGet now k => (get now k c).2
  | OSet now k v => set now k v c
  | ODelete k => (delete k c).2
  | OClear => clear c
  | OSweep now => cleanupExpired now c
  end.

Definition run (c : LRUCache) (ops : list Op) : LRUCache := foldl step c ops.

Definition m_step (capacity ttl : Z) (es : list Entry) (o : Op) : list Entry :=
  match o with
  | OGet now k => (m_get (now 1%nat) ttl k es).2
  | OSet now k v => m_set capacity now k v es
  | ODelete k => (m_delete k es).2
  | OClear => []
  | OSweep now => m_sweep now ttl es
  end.

Definition m_run (capacity ttl : Z) (es : list Entry) (ops : list Op) : list Entry :=
  foldl (m_step capacity ttl) es ops.

(** A sequence of [set] calls, each with its clock reading. *)
Definition sets (calls : list (Z * string * T)) : list Op :=
  (λ call, OSet call.1.1 call.1.2 call.2) <$> calls.

(** ** Latency samples, read off the trace

    The duration a [get] records: its last clock reading minus the first. *)
Definition duration (c : LRUCache) (now : nat → Z) (k : string) : Z :=
  match cache c !! k with
  | None => now 1%nat - now 0%nat
  | Some _ => now 2%nat - now 0%nat
  end.

(** [recorded c ops acc]: the durations of the [get] calls since the last
    [clear], after [ops] have run from [c], when they were [acc] before. *)
Fixpoint recorded (c : LRUCache) (ops : list Op) (acc : list Z) : list Z :=
  match ops with
  | [] => acc
  | o :: ops' =>
      recorded (step c o) ops'
        match o with
        | OGet now k => acc ++ [duration c now k]
        | OClear => []
        | _ => acc
        end
  end.

(** The most recent (at most) 100 samples. *)
Definition window (samples : list Z) : list Z :=
  drop (length samples - 100) samples.

(** The mean of the samples, scaled by 100, rounded and scaled back; zero
    when there is none. *)
Definition rounded_mean (samples : list Z) : N :=
  match samples with
  | [] => of_Z 0
  | _ =>
      num_div
        (Math_round
           (num_mul
              (num_div (of_Z (foldr Z.add 0 samples))
                       (of_Z (Z.of_nat (length samples))))
              (of_Z 100)))
        (of_Z 100)
  end.

(** ** Recency, read off the trace

    An operation uses a key when it is a [set] of that key or a [get] of it
    that returned a value. *)
Definition uses (c : LRUCache) (o : Op) (k : string) : bool :=
  match o with
  | OGet now k' =>
      bool_decide (k' = k) &&
      match (get now k' c).1 with Some _ => true | None => false end
  | OSet _ k' _ => bool_decide (k' = k)
  | _ => false
  end.

(** [idle c ops k n]: the number of operations since the last use of [k]
    once [ops] have run from [c], when that number was [n] before. *)
Fixpoint idle (c : LRUCache) (ops : list Op) (k : string) (n : nat) : nat :=
  match ops with
  | [] => n
  | o :: ops' => idle (step c o) ops' k (if uses c o k then 0%nat else S n)
  end.

(** The number of operations of the trace that came after the last use of
    [k] (all of them when [k] was never used). *)
Definition since_use (c : LRUCache) (ops : list Op) (k : string) : nat :=
  idle c ops k 0%nat.

(** [fresher r e1 e2]: [e1] was used more recently than [e2] under the
    idle counts [r]. *)
Definition fresher (r : string → nat) (e1 e2 : Entry) : Prop :=
  (r (ekey e1) < r (ekey e2))%nat.

(** ** Writes and reads, read off the trace

    [last_write ops k w]: what the last [set] of [k] among [ops] wrote, its
    value and its clock reading; [w] when there is none. *)
Fixpoint last_write (ops : list Op) (k : string) (w : option (T * Z))
    : option (T * Z) :=
  match ops with
  | [] => w
  | o :: ops' =>
      last_write ops' k
        match o with
        | OSet now k' v => if decide (k' = k) then Some (v, now) else w
        | _ => w
        end
  end.

Definition last_set (ops : list Op) (k : string) : option (T * Z) :=
  last_write ops k None.

(** The number of [get] calls among [ops], run from [c], that returned a
    value ([hit = true]) or [null] ([hit = false]). *)
Fixpoint count_gets (hit : bool) (c : LRUCache) (ops : list Op) : Z :=
  match ops with
  | [] => 0
  | o :: ops' =>
      match o with
      | OGet now k =>
          if bool_decide (hit = bool_decide (is_Some (get now k c).1)) then 1 else 0
      | _ => 0
      end + count_gets hit (step c o) ops'
  end.

Definition is_get (o : Op) : bool :=
  match o with OGet _ _ => true | _ => false end.

(** The entry a [set] call writes. *)
Definition call_entry (call : Z * string * T) : Entry :=
  mkEntry call.1.2 call.2 call.1.1.

(** * Proofs *)

(** ** Entries and frame facts of node updates *)


Lemma set_prev_keeps_entry p : keeps_entry (set_prev p).
Proof. by intros []. Qed.

Lemma set_next_keeps_entry q : keeps_entry (set_next q).
Proof. by intros []. Qed.

Lemma entry_alter (f : CacheNode → CacheNode) (h : list CacheNode) (x l : ref) :
  keeps_entry f → entry_of <$> alter f x h !! l = entry_of <$> h !! l.
Proof.
  intros Hf. destruct (decide (x = l)) as [->|Hne].
  - rewrite list_lookup_alter_eq. destruct (h !! l) as [n|]; simpl; [|done].
    by rewrite Hf.
  - by rewrite list_lookup_alter_ne.
Qed.

Lemma key_of_entry (h : list CacheNode) (l : ref) :
  key <$> h !! l = ekey <$> (entry_of <$> h !! l).
Proof. by destruct (h !! l). Qed.

(** ** Segments *)

Lemma dllseg_app h prv cur l1 l2 lst nxt :
  dllseg h prv cur (l1 ++ l2) lst nxt ↔
  ∃ m c, dllseg h prv cur l1 m c ∧ dllseg h m c l2 lst nxt.
Proof.
  revert prv cur. induction l1 as [|l l1 IH]; intros prv cur; simpl.
  - split.
    + intros Hs. by exists prv, cur.
    + intros (m & c & [-> ->] & Hs). done.
  - split.
    + intros (-> & n & Hn & Hp & Hs). apply IH in Hs as (m & c & H1 & H2).
      exists m, c. split; [|done]. split; [done|]. by exists n.
    + intros (m & c & (-> & n & Hn & Hp & H1) & H2). split; [done|].
      exists n. repeat split; try done. apply IH. by exists m, c.
Qed.

Lemma dllseg_snoc h prv cur ls p lst nxt :
  dllseg h prv cur (ls ++ [p]) lst nxt ↔
  ∃ m n, dllseg h prv cur ls m (Some p) ∧ h !! p = Some n ∧ prev n = m ∧
         next n = nxt ∧ lst = Some p.
Proof.
  rewrite dllseg_app. simpl. split.
  - intros (m & c & H1 & -> & n & Hn & Hp & Hq & Hl). by exists m, n.
  - intros (m & n & H1 & Hn & Hp & Hq & Hl). exists m, (Some p).
    split; [done|]. split; [done|]. by exists n.
Qed.

(** Updating a node outside a segment, or without touching its links, leaves
    the segment as it is. *)
Lemma dllseg_alter h f x prv cur ls lst nxt :
  x ∉ ls ∨ (∀ n, prev (f n) = prev n ∧ next (f n) = next n) →
  dllseg h prv cur ls lst nxt → dllseg (alter f x h) prv cur ls lst nxt.
Proof.
  intros Hx. revert prv cur. induction ls as [|l ls IH]; intros prv cur; simpl; [done|].
  intros (-> & n & Hn & Hp & Hs). split; [done|].
  assert (x ∉ ls ∨ (∀ n, prev (f n) = prev n ∧ next (f n) = next n)) as Hx'.
  { destruct Hx as [Hx|Hx]; [left|by right]. by apply not_elem_of_cons in Hx as [_ ?]. }
  destruct (decide (x = l)) as [->|Hne].
  - destruct Hx as [Hx|Hx]; [by apply not_elem_of_cons in Hx as [? _]|].
    exists (f n). rewrite list_lookup_alter_eq, Hn. split; [done|].
    destruct (Hx n) as [-> ->]. split; [done|]. by apply IH.
  - exists n. rewrite list_lookup_alter_ne; [|done]. repeat split; try done. by apply IH.
Qed.

(** On a complete list the first node has no predecessor, so the end marker
    of a prefix is [None] exactly when the prefix is empty. *)
Lemma dllseg_last h prv cur ls lst nxt :
  dllseg h prv cur ls lst nxt → lst = match last ls with Some l => Some l | None => prv end.
Proof.
  revert prv cur. induction ls as [|l ls IH]; intros prv cur; simpl.
  - by intros [_ ->].
  - intros (-> & n & Hn & Hp & Hs). apply IH in Hs as ->.
    rewrite last_cons. by destruct (last ls).
Qed.

Lemma dllseg_first h prv cur ls lst nxt :
  dllseg h prv cur ls lst nxt → cur = match ls with l :: _ => Some l | [] => nxt end.
Proof. destruct ls; simpl; [by intros [-> _]|by intros [-> _]]. Qed.

Lemma dllseg_lookup h prv cur ls lst nxt l :
  dllseg h prv cur ls lst nxt → l ∈ ls → is_Some (h !! l).
Proof.
  revert prv cur. induction ls as [|x ls IH]; intros prv cur; simpl.
  - intros _ Hl. by apply elem_of_nil in Hl.
  - intros (-> & n & Hn & Hp & Hs) [->|Hl]%elem_of_cons; [by exists n|].
    by eapply IH.
Qed.

(** Redirecting the [next] link of the last node of a segment. *)
Lemma relink_next h prv cur ls p lst nxt q :
  p ∉ ls → dllseg h prv cur (ls ++ [p]) lst nxt →
  dllseg (alter (set_next q) p h) prv cur (ls ++ [p]) lst q.
Proof.
  intros Hp. rewrite !dllseg_snoc. intros (m & n & Hs & Hn & Hm & Hq & Hl).
  exists m, (set_next q n). split; [by apply dllseg_alter; [left|]|].
  rewrite list_lookup_alter_eq, Hn. by destruct n.
Qed.

(** Redirecting the [prev] link of the first node of a segment. *)
Lemma relink_prev h prv cur ls q lst nxt p :
  q ∉ ls → dllseg h prv cur (q :: ls) lst nxt →
  dllseg (alter (set_prev p) q h) p cur (q :: ls) lst nxt.
Proof.
  intros Hq. simpl. intros (-> & n & Hn & Hp & Hs). split; [done|].
  exists (set_prev p n). rewrite list_lookup_alter_eq, Hn.
  split; [done|]. split; [by destruct n|].
  destruct n; simpl in *. by apply dllseg_alter; [left|].
Qed.

(** ** The private list operations *)

(** Reading node fields through the store, using what is known of the nodes. *)
Ltac read_fields :=
  repeat (simpl;
          first [ rewrite list_lookup_alter_ne by done
                | match goal with
                  | H : _ !! _ = Some _ |- _ => rewrite H
                  | H : prev _ = _ |- _ => rewrite H
                  | H : next _ = _ |- _ => rewrite H
                  end ]);
  simpl.

Lemma removeNode_list c l1 l l2 :
  recency_list c (l1 ++ l :: l2) → recency_list (removeNode l c) (l1 ++ l2).
Proof.
  destruct c as [cap m hd tl tt st rt h]. unfold recency_list; simpl.
  intros [Hs Hnd].
  apply NoDup_app in Hnd as (Hnd1 & Hdisj & [Hl2 Hnd2]%NoDup_cons).
  split; [|apply NoDup_app; repeat split; [done| |done];
           intros x Hx1 Hx2; eapply Hdisj; [done|by right]].
  assert (l ∉ l1) as Hl1 by (intros ?; eapply Hdisj; [done|left]).
  apply dllseg_app in Hs as (mp & cp & H1 & H2). simpl in H2.
  destruct H2 as (-> & n & Hn & Hp & H2).
  unfold removeNode, field.
  destruct l1 as [|p l1 _] using rev_ind.
  - destruct H1 as [-> ->].
    destruct l2 as [|q l2]; simpl in H2.
    + destruct H2 as [Hq ->]. by read_fields.
    + destruct H2 as (Hq & H2). read_fields.
      apply NoDup_cons in Hnd2 as [Hq2 _].
      apply (relink_prev _ (Some l)); [done|]. by simpl.
  - pose proof H1 as (m' & np & H1' & Hnp & Hm' & Hnx & ->)%dllseg_snoc.
    assert (p ≠ l) as Hpl.
    { intros ->. apply Hl1, elem_of_app. right. left. }
    assert (p ∉ l1) as Hp1.
    { by apply NoDup_app in Hnd1 as (_ & Hd & _); intros ?; eapply Hd; [|left]. }
    destruct l2 as [|q l2]; simpl in H2.
    + destruct H2 as [Hq ->]. read_fields.
      rewrite app_nil_r. by eapply relink_next.
    + destruct H2 as (Hq & H2). read_fields.
      apply NoDup_cons in Hnd2 as [Hq2 _].
      assert (q ∉ l1 ++ [p]) as Hq1.
      { intros ?. eapply Hdisj; [done|]. right. left. }
      apply dllseg_app. exists (Some p), (Some q). split.
      * apply dllseg_alter; [by left|]. by eapply relink_next.
      * apply (relink_prev _ (Some l)); [done|].
        apply dllseg_alter; [left|simpl; split; [done|exact H2]].
        intros Hin. eapply Hdisj; [apply elem_of_app; right; left|by right].
Qed.

Lemma dllseg_cons h prv l n ls lst nxt :
  h !! l = Some n → prev n = prv → dllseg h (Some l) (next n) ls lst nxt →
  dllseg h prv (Some l) (l :: ls) lst nxt.
Proof. intros Hn Hp Hs. split; [done|]. by exists n. Qed.

Lemma addToHead_list c l ls :
  recency_list c ls → l ∉ ls → is_Some (store c !! l) →
  recency_list (addToHead l c) (l :: ls).
Proof.
  destruct c as [cap m hd tl tt st rt h]. unfold recency_list; simpl.
  intros [Hs Hnd] Hl [n Hn]. split; [|by apply NoDup_cons].
  unfold addToHead, assign; cbn -[dllseg].
  destruct ls as [|x ls]; simpl in Hs.
  - destruct Hs as [-> ->]. cbn -[dllseg].
    apply (dllseg_cons _ _ _ (set_next None (set_prev None n))); [|done..].
    by rewrite !list_lookup_alter_eq, Hn.
  - destruct Hs as (-> & nx & Hnx & Hp & Hs). cbn -[dllseg].
    pose proof (dllseg_last _ _ _ _ _ _ Hs) as Htl.
    assert (∃ t, tl = Some t) as [t ->] by (destruct (last ls); eauto).
    cbn -[dllseg].
    apply not_elem_of_cons in Hl as [Hlx Hl]. apply NoDup_cons in Hnd as [Hx Hnd].
    apply (dllseg_cons _ _ _ (set_next (Some x) (set_prev None n))); [|done|].
    { by rewrite list_lookup_alter_ne, !list_lookup_alter_eq, Hn by done. }
    cbn -[dllseg].
    apply (relink_prev _ None (Some x) ls x (Some t) None (Some l)); [done|].
    do 2 (apply dllseg_alter; [left; by apply not_elem_of_cons|]).
    by apply (dllseg_cons _ _ _ nx).
Qed.

(** ** What the list operations leave alone *)

Lemma links_only_refl c : links_only c c.
Proof. by repeat split. Qed.

Lemma links_only_trans c1 c2 c3 :
  links_only c1 c2 → links_only c2 c3 → links_only c1 c3.
Proof.
  intros (?&?&?&?&?&?&He) (?&?&?&?&?&?&He').
  split_and!; congruence.
Qed.

Lemma links_only_assign f l c : keeps_entry f → links_only c (assign f l c).
Proof.
  intros Hf. split_and!; simpl; try done; [apply length_alter|].
  intros x. by apply entry_alter.
Qed.

Lemma links_only_head o c : links_only c (upd_head o c).
Proof. by repeat split. Qed.

Lemma links_only_tail o c : links_only c (upd_tail o c).
Proof. by repeat split. Qed.

Create HintDb links discriminated.
#[local] Hint Resolve links_only_refl links_only_assign links_only_head
  links_only_tail set_prev_keeps_entry set_next_keeps_entry : links.

Ltac links_only_step :=
  first
    [ match goal with
      | |- links_only _ (match ?x with _ => _ end) => destruct x
      end
    | eapply links_only_trans; [|apply links_only_tail]
    | eapply links_only_trans; [|apply links_only_head]
    | eapply links_only_trans; [|apply links_only_assign; auto with links] ].

Lemma links_only_removeNode l c : links_only c (removeNode l c).
Proof. unfold removeNode. cbv zeta. do 4 try links_only_step; apply links_only_refl. Qed.

Lemma links_only_addToHead l c : links_only c (addToHead l c).
Proof. unfold addToHead. cbv zeta. do 7 try links_only_step; apply links_only_refl. Qed.

Lemma links_only_moveToHead l c : links_only c (moveToHead l c).
Proof.
  eapply links_only_trans; [apply links_only_removeNode|apply links_only_addToHead].
Qed.

(** ** Facts about the reference model *)

Lemma without_absent k es : k ∉ ekey <$> es → without k es = es.
Proof.
  unfold without. induction es as [|e es IH]; [done|].
  rewrite fmap_cons. intros [Hk Hes]%not_elem_of_cons.
  rewrite filter_cons_True by (unfold has_key; congruence). by rewrite IH.
Qed.

Lemma without_present k e es1 es2 :
  ekey e = k → k ∉ ekey <$> es1 → k ∉ ekey <$> es2 →
  without k (es1 ++ e :: es2) = es1 ++ es2.
Proof.
  intros He H1 H2. unfold without. rewrite filter_app, filter_cons_False.
  - fold (without k es1) (without k es2).
    by rewrite (without_absent k es1), (without_absent k es2).
  - intros Hn. by apply Hn.
Qed.

Lemma find_key_absent k es : k ∉ ekey <$> es → find_key k es = None.
Proof.
  intros Hk. unfold find_key.
  destruct (list_find (has_key k) es) as [[i e]|] eqn:Hf; [|done].
  apply list_find_Some in Hf as (Hi & He & _). exfalso. apply Hk.
  apply list_elem_of_fmap. exists e. split; [done|]. by eapply list_elem_of_lookup_2.
Qed.

Lemma find_key_present k e es1 es2 :
  ekey e = k → k ∉ ekey <$> es1 → find_key k (es1 ++ e :: es2) = Some e.
Proof.
  intros He H1. unfold find_key.
  induction es1 as [|e1 es1 IH]; simpl.
  - by rewrite decide_True.
  - rewrite fmap_cons in H1. apply not_elem_of_cons in H1 as [Hne H1].
    rewrite decide_False by (unfold has_key; congruence).
    specialize (IH H1). destruct (list_find _ (es1 ++ e :: es2)) as [[i x]|]; by simplify_eq/=.
Qed.

Lemma find_key_Some k es e : find_key k es = Some e → ekey e = k ∧ e ∈ es.
Proof.
  unfold find_key. destruct (list_find (has_key k) es) as [[i x]|] eqn:Hf; [|done].
  intros [= <-]. apply list_find_Some in Hf as (Hi & He & _).
  split; [done|]. by eapply list_elem_of_lookup_2.
Qed.

(** ** Consequences of the invariant *)

Lemma holds_key c l e : holds c l e → key <$> store c !! l = Some (ekey e).
Proof. unfold holds. rewrite key_of_entry. by intros ->. Qed.

Lemma holds_links_only c c' l e : links_only c c' → holds c l e → holds c' l e.
Proof. intros (_&_&_&_&_&_&He). unfold holds. by rewrite He. Qed.

Lemma Forall2_holds_elem c ls es e :
  Forall2 (holds c) ls es → e ∈ es → ∃ l, l ∈ ls ∧ holds c l e.
Proof.
  induction 1 as [|l e' ls es Hh _ IH]; [by intros ?%elem_of_nil|].
  intros [->|He]%elem_of_cons.
  - exists l. split; [left|done].
  - destruct (IH He) as (l' & ? & ?). exists l'. split; [by right|done].
Qed.

Lemma Inv_key_absent c ls es k :
  Inv c ls es → cache c !! k = None → k ∉ ekey <$> es.
Proof.
  intros [_ Hidx Hes _ _] Hk (e & -> & He)%list_elem_of_fmap.
  destruct (Forall2_holds_elem _ _ _ _ Hes He) as (l & Hl & Hh).
  assert (cache c !! ekey e = Some l) as Hc by (apply Hidx; eauto using holds_key).
  congruence.
Qed.

Lemma Inv_split c ls es k l :
  Inv c ls es → cache c !! k = Some l →
  ∃ l1 l2 e es1 es2,
    ls = l1 ++ l :: l2 ∧ es = es1 ++ e :: es2 ∧
    Forall2 (holds c) l1 es1 ∧ holds c l e ∧ Forall2 (holds c) l2 es2 ∧
    ekey e = k ∧ (k ∉ ekey <$> es1) ∧ (k ∉ ekey <$> es2).
Proof.
  intros [[_ Hnd] Hidx Hes _ _] Hk.
  pose proof Hk as [Hl Hkey]%Hidx.
  apply list_elem_of_split in Hl as (l1 & l2 & ->).
  apply Forall2_app_inv_l in Hes as (es1 & es' & H1 & H2 & ->).
  apply Forall2_cons_inv_l in H2 as (e & es2 & He & H2 & ->).
  exists l1, l2, e, es1, es2.
  assert (ekey e = k) as Hek.
  { apply holds_key in He. congruence. }
  apply NoDup_app in Hnd as (_ & Hdisj & [Hl2 _]%NoDup_cons).
  split_and!; try done.
  - intros (e' & -> & He')%list_elem_of_fmap.
    destruct (Forall2_holds_elem _ _ _ _ H1 He') as (l' & Hl' & Hh).
    assert (cache c !! ekey e' = Some l') as Hc.
    { apply Hidx. split; [apply elem_of_app; by left|by apply holds_key]. }
    assert (l' = l) as -> by congruence.
    eapply Hdisj; [done|left].
  - intros (e' & -> & He')%list_elem_of_fmap.
    destruct (Forall2_holds_elem _ _ _ _ H2 He') as (l' & Hl' & Hh).
    assert (cache c !! ekey e' = Some l') as Hc.
    { apply Hidx. split; [apply elem_of_app; right; right; done|by apply holds_key]. }
    assert (l' = l) as -> by congruence. done.
Qed.

Lemma key_links_only c c' x :
  links_only c c' → key <$> store c' !! x = key <$> store c !! x.
Proof. intros (_&_&_&_&_&_&He). by rewrite !key_of_entry, He. Qed.

Lemma Forall2_holds_links_only c c' ls es :
  links_only c c' → Forall2 (holds c) ls es → Forall2 (holds c') ls es.
Proof. intros Hlo Hes. eapply Forall2_impl; eauto using holds_links_only. Qed.

(** ** Unlinking an indexed node: [delete] and [removeTail] *)

Lemma Inv_remove c l1 l l2 es1 e es2 k :
  Inv c (l1 ++ l :: l2) (es1 ++ e :: es2) →
  Forall2 (holds c) l1 es1 → Forall2 (holds c) l2 es2 →
  cache c !! k = Some l →
  Inv (upd_stats size_decr (upd_cache (base.delete k) (removeNode l c)))
      (l1 ++ l2) (es1 ++ es2).
Proof.
  intros [Hls Hidx _ Hcnt Hsz] H1 H2 Hk. unfold index_matches in Hidx.
  pose proof (removeNode_list _ _ _ _ Hls) as Hls'.
  pose proof (links_only_removeNode l c) as Hlo.
  destruct Hls as [_ Hnd].
  assert (l ∉ l1 ++ l2) as Hl.
  { apply NoDup_app in Hnd as (_ & Hdisj & [Hl2 _]%NoDup_cons).
    intros [?|?]%elem_of_app; [|done]. eapply Hdisj; [done|left]. }
  pose proof Hk as [_ Hkey]%Hidx.
  set (c1 := removeNode l c) in *. clearbody c1.
  pose proof Hlo as (Hcap & Hc & Httl & Hst & Hrt & Hlen & Hent).
  split.
  - exact Hls'.
  - intros k' l'. simpl. rewrite Hc, lookup_delete_Some, Hidx, (key_links_only c c1) by done.
    split.
    + intros (Hne & Hin & Hk'). split; [|done].
      apply elem_of_app in Hin as [?|[->|?]%elem_of_cons]; apply elem_of_app; auto.
      congruence.
    + intros (Hin & Hk').
      assert (l' ∈ l1 ++ l :: l2) as Hin'.
      { apply elem_of_app in Hin as [?|?]; apply elem_of_app; [by left|right; by right]. }
      split_and!; [|done..].
      intros <-. assert (cache c !! k = Some l') by (by apply Hidx).
      congruence.
  - change (Forall2 (holds c1) (l1 ++ l2) (es1 ++ es2)).
    apply Forall2_app; by eapply Forall2_holds_links_only.
  - simpl. rewrite Hc, map_size_delete_Some, Hcnt by done.
    rewrite !length_app. simpl. lia.
  - simpl. rewrite Hc, Hst, Hsz, map_size_delete_Some, Hcnt by done.
    rewrite !length_app. simpl. lia.
Qed.

(** ** Promotion: [moveToHead] *)

Lemma Inv_promote c l1 l l2 es1 e es2 :
  Inv c (l1 ++ l :: l2) (es1 ++ e :: es2) →
  Forall2 (holds c) l1 es1 → holds c l e → Forall2 (holds c) l2 es2 →
  Inv (moveToHead l c) (l :: l1 ++ l2) (e :: es1 ++ es2).
Proof.
  intros [Hls Hidx _ Hcnt Hsz] H1 He H2. unfold index_matches in Hidx.
  pose proof (links_only_moveToHead l c) as Hlo.
  pose proof (links_only_removeNode l c) as Hlo1.
  pose proof (removeNode_list _ _ _ _ Hls) as Hls1.
  destruct Hls as [_ Hnd].
  assert (l ∉ l1 ++ l2) as Hl.
  { apply NoDup_app in Hnd as (_ & Hdisj & [Hl2 _]%NoDup_cons).
    intros [?|?]%elem_of_app; [|done]. eapply Hdisj; [done|left]. }
  assert (is_Some (store (removeNode l c) !! l)) as Hsome.
  { apply (holds_links_only _ _ _ _ Hlo1) in He. unfold holds in He.
    destruct (store (removeNode l c) !! l); [eauto|done]. }
  pose proof (addToHead_list _ _ _ Hls1 Hl Hsome) as Hls'.
  fold (moveToHead l c) in Hls'.
  set (c1 := moveToHead l c) in *. clearbody c1.
  pose proof Hlo as (Hcap & Hc & Httl & Hst & Hrt & Hlen & Hent).
  split.
  - exact Hls'.
  - intros k' l'. rewrite Hc, Hidx, (key_links_only c c1) by done.
    rewrite elem_of_cons, !elem_of_app, elem_of_cons. naive_solver.
  - constructor; [by eapply holds_links_only|].
    apply Forall2_app; by eapply Forall2_holds_links_only.
  - rewrite Hc, Hcnt. simpl. rewrite !length_app. simpl. lia.
  - by rewrite Hc, Hst.
Qed.

(** ** Counters and latency samples *)

Lemma Inv_upd_stats c ls es f :
  (∀ s, size (f s) = size s) → Inv c ls es → Inv (upd_stats f c) ls es.
Proof. intros Hf [? ? ? ? ?]. split; try done. simpl. by rewrite Hf. Qed.

Lemma Inv_recordResponseTime c ls es t :
  Inv c ls es → Inv (recordResponseTime t c) ls es.
Proof. by intros [? ? ? ? ?]. Qed.

(** ** Overwriting the payload of an indexed node *)

Lemma Forall2_holds_assign c f l ls es :
  l ∉ ls → Forall2 (holds c) ls es → Forall2 (holds (assign f l c)) ls es.
Proof.
  intros Hl Hes. induction Hes as [|x e ls es Hx _ IH]; [constructor|].
  apply not_elem_of_cons in Hl as [Hne Hl]. constructor; [|by apply IH].
  unfold holds in *. simpl. by rewrite list_lookup_alter_ne.
Qed.

Lemma Inv_assign c l1 l l2 es1 e es2 f n :
  (∀ n, prev (f n) = prev n ∧ next (f n) = next n) → (∀ n, key (f n) = key n) →
  Inv c (l1 ++ l :: l2) (es1 ++ e :: es2) →
  Forall2 (holds c) l1 es1 → store c !! l = Some n → Forall2 (holds c) l2 es2 →
  Inv (assign f l c) (l1 ++ l :: l2) (es1 ++ entry_of (f n) :: es2).
Proof.
  intros Hlinks Hkey [[Hs Hnd] Hidx _ Hcnt Hsz] H1 Hn H2.
  pose proof Hnd as Hnd'.
  apply NoDup_app in Hnd' as (_ & Hdisj & [Hl2 _]%NoDup_cons).
  assert (l ∉ l1) as Hl1 by (intros ?; eapply Hdisj; [done|left]).
  split; try done.
  - split; [|done]. simpl. by apply dllseg_alter; [right|].
  - intros k' l'. rewrite (Hidx k' l'). simpl.
    destruct (decide (l = l')) as [->|Hne].
    + rewrite list_lookup_alter_eq. destruct (store c !! l'); simpl; [|done].
      by rewrite Hkey.
    + by rewrite list_lookup_alter_ne.
  - apply Forall2_app; [by apply Forall2_holds_assign|].
    constructor; [|by apply Forall2_holds_assign].
    unfold holds. simpl. by rewrite list_lookup_alter_eq, Hn.
Qed.

(** ** Linking a fresh node: the insertion branch of [set] *)

Lemma dllseg_store_app h h' prv cur ls lst nxt :
  dllseg h prv cur ls lst nxt → dllseg (h ++ h') prv cur ls lst nxt.
Proof.
  revert prv cur. induction ls as [|l ls IH]; intros prv cur; simpl; [done|].
  intros (-> & n & Hn & Hp & Hs). split; [done|]. exists n.
  split; [by apply lookup_app_l_Some|]. split; [done|]. by apply IH.
Qed.

Lemma Inv_insert c ls es k v now :
  Inv c ls es → cache c !! k = None →
  Inv (upd_stats size_incr
         (addToHead (length (store c))
            (upd_cache (insert k (length (store c)))
               (upd_store (λ s, s ++ [mkNode k v now None None]) c))))
      (length (store c) :: ls) (mkEntry k v now :: es).
Proof.
  intros [[Hs Hnd] Hidx Hes Hcnt Hsz] Hk. unfold index_matches in Hidx.
  set (l := length (store c)).
  set (c0 := upd_cache (insert k l) (upd_store (λ s, s ++ [mkNode k v now None None]) c)).
  assert (∀ x, x ∈ ls → x < l)%nat as Hlt.
  { intros x Hx. apply lookup_lt_is_Some. by eapply dllseg_lookup. }
  assert (l ∉ ls) as Hl by (intros ?%Hlt; lia).
  assert (store c0 !! l = Some (mkNode k v now None None)) as Hnew.
  { simpl. by apply list_lookup_middle. }
  assert (recency_list c0 ls) as Hls0.
  { split; [|done]. simpl. by apply dllseg_store_app. }
  pose proof (addToHead_list _ _ _ Hls0 Hl (mk_is_Some _ _ Hnew)) as Hls'.
  pose proof (links_only_addToHead l c0) as Hlo.
  assert (∀ x, x ∈ ls → store c0 !! x = store c !! x) as Hold.
  { intros x Hx. simpl. apply lookup_app_l. by apply Hlt. }
  assert (cache c0 = <[k:=l]> (cache c)) as Hc0 by done.
  assert (stats c0 = stats c) as Hst0 by done.
  set (c1 := addToHead l c0) in *. clearbody c1. clearbody c0.
  pose proof Hlo as (Hcap & Hc & Httl & Hst & Hrt & Hlen & Hent).
  split.
  - exact Hls'.
  - intros k' l'. simpl. rewrite Hc, (key_links_only c0 c1) by done.
    rewrite Hc0, lookup_insert_Some, Hidx, elem_of_cons.
    split.
    + intros [[<- <-]|(Hne & Hin & Hk')].
      * split; [by left|]. by rewrite Hnew.
      * split; [by right|]. by rewrite Hold.
    + intros [[->|Hin] Hk'].
      * left. rewrite Hnew in Hk'. by simplify_eq/=.
      * rewrite Hold in Hk' by done. right. split_and!; [|done..].
        intros <-. assert (cache c !! k = Some l') by (by apply Hidx). congruence.
  - change (Forall2 (holds c1) (l :: ls) (mkEntry k v now :: es)).
    constructor.
    + apply (holds_links_only c0); [done|]. unfold holds. by rewrite Hnew.
    + apply (Forall2_holds_links_only c0); [done|].
      clear -Hes Hold. induction Hes as [|x e ls es Hx _ IH]; [constructor|].
      constructor.
      * unfold holds in *. rewrite Hold; [done|left].
      * apply IH. intros y Hy. apply Hold. by right.
  - simpl. rewrite Hc, Hc0, map_size_insert_None by done. by rewrite Hcnt.
  - simpl. rewrite Hc, Hst, Hc0, Hst0, map_size_insert_None by done. simpl. lia.
Qed.

Lemma Inv_constructor cap ttlSeconds : Inv (constructor cap ttlSeconds) [] [].
Proof.
  split; try done.
  - split; [done|constructor].
  - intros k l. simpl. rewrite lookup_empty, elem_of_nil. naive_solver.
Qed.

Lemma Inv_clear c : Inv (clear c) [] [].
Proof.
  split; try done.
  - split; [done|constructor].
  - intros k l. simpl. rewrite lookup_empty, elem_of_nil. naive_solver.
Qed.

(** ** The public operations follow the reference model *)

Lemma delete_refines c ls es k :
  Inv c ls es →
  ∃ ls', Inv (delete k c).2 ls' (m_delete k es).2 ∧
         (delete k c).1 = (m_delete k es).1.
Proof.
  intros HI. unfold delete, m_delete.
  destruct (cache c !! k) as [l|] eqn:Hk; simpl.
  - destruct (Inv_split _ _ _ _ _ HI Hk)
      as (l1 & l2 & e & es1 & es2 & -> & -> & H1 & He & H2 & Hek & Hk1 & Hk2).
    exists (l1 ++ l2). rewrite without_present, find_key_present by done.
    split; [by eapply Inv_remove|]. symmetry. apply bool_decide_eq_true. eauto.
  - pose proof (Inv_key_absent _ _ _ _ HI Hk) as Hne.
    exists ls. rewrite without_absent, find_key_absent by done.
    split; [done|]. symmetry. apply bool_decide_eq_false. by intros [? ?].
Qed.

Lemma value_of_entry (h : list CacheNode) (l : ref) :
  value <$> h !! l = evalue <$> (entry_of <$> h !! l).
Proof. by destruct (h !! l). Qed.

Lemma get_refines c ls es now k :
  Inv c ls es →
  ∃ ls', Inv (get now k c).2 ls' (m_get (now 1%nat) (ttl c) k es).2 ∧
         (get now k c).1 = (m_get (now 1%nat) (ttl c) k es).1.
Proof.
  intros HI. unfold get, m_get.
  destruct (cache c !! k) as [l|] eqn:Hk.
  - destruct (Inv_split _ _ _ _ _ HI Hk)
      as (l1 & l2 & e & es1 & es2 & -> & -> & H1 & He & H2 & Hek & Hk1 & Hk2).
    rewrite find_key_present by done.
    pose proof He as Hn. unfold holds in Hn.
    destruct (store c !! l) as [n|] eqn:Hl; [|done].
    injection Hn as <-. simpl.
    destruct (now 1%nat - timestamp n >? ttl c) eqn:Hexp; simpl.
    + exists (l1 ++ l2). split; [|done]. rewrite without_present by done.
      apply Inv_recordResponseTime, Inv_upd_stats; [done|].
      unfold delete. rewrite Hk. simpl. by eapply Inv_remove.
    + exists (l :: l1 ++ l2). rewrite without_present by done. split.
      * apply Inv_recordResponseTime, Inv_upd_stats; [done|].
        by apply Inv_promote.
      * destruct (links_only_moveToHead l c) as (_&_&_&_&_&_&Hent).
        by rewrite value_of_entry, Hent, Hl.
  - pose proof (Inv_key_absent _ _ _ _ HI Hk) as Hne.
    rewrite find_key_absent by done. exists ls. split; [|done].
    by apply Inv_recordResponseTime, Inv_upd_stats.
Qed.

Lemma removeTail_refines c ls es :
  Inv c ls es → ∃ ls', Inv (removeTail c) ls' (removelast es).
Proof.
  intros HI. pose proof HI as [[Hs Hnd] Hidx Hes _ _].
  pose proof (dllseg_last _ _ _ _ _ _ Hs) as Htl. unfold removeTail.
  destruct ls as [|x ls' _] using rev_ind.
  - simpl in Htl. rewrite Htl. apply Forall2_nil_inv_l in Hes as ->. by exists [].
  - rewrite last_snoc in Htl. rewrite Htl.
    apply Forall2_app_inv_l in Hes as (es1 & es2 & H1 & H2 & ->).
    apply Forall2_cons_inv_l in H2 as (e & es3 & He & H3 & ->).
    apply Forall2_nil_inv_l in H3 as ->.
    pose proof He as Hn. unfold holds in Hn.
    destruct (store c !! x) as [n|] eqn:Hx; [|done].
    rewrite removelast_last. exists ls'.
    rewrite <- (app_nil_r ls'), <- (app_nil_r es1).
    eapply Inv_remove; [done..|constructor|].
    apply Hidx. split; [apply elem_of_app; right; left|]. by rewrite Hx.
Qed.

Lemma set_refines c ls es now k v :
  Inv c ls es → ∃ ls', Inv (set now k v c) ls' (m_set (capacity c) now k v es).
Proof.
  intros HI. unfold set, m_set.
  destruct (cache c !! k) as [l|] eqn:Hk.
  - destruct (Inv_split _ _ _ _ _ HI Hk)
      as (l1 & l2 & e & es1 & es2 & -> & -> & H1 & He & H2 & Hek & Hk1 & Hk2).
    rewrite find_key_present, without_present by done.
    pose proof He as Hn. unfold holds in Hn.
    destruct (store c !! l) as [n|] eqn:Hl; [|done].
    injection Hn as <-.
    exists (l :: l1 ++ l2).
    pose proof HI as [[_ Hnd] _ _ _ _].
    apply NoDup_app in Hnd as (_ & Hdisj & [Hl2 _]%NoDup_cons).
    assert (l ∉ l1) as Hl1 by (intros ?; eapply Hdisj; [done|left]).
    assert (Inv (assign (set_value v) l c) (l1 ++ l :: l2)
                (es1 ++ entry_of (set_value v n) :: es2)) as HI1.
    { by eapply Inv_assign. }
    assert (store (assign (set_value v) l c) !! l = Some (set_value v n)) as Hl'.
    { simpl. by rewrite list_lookup_alter_eq, Hl. }
    assert (Inv (assign (set_timestamp now) l (assign (set_value v) l c))
                (l1 ++ l :: l2)
                (es1 ++ entry_of (set_timestamp now (set_value v n)) :: es2)) as HI2.
    { eapply Inv_assign; try done; by apply Forall2_holds_assign. }
    replace (mkEntry k v now) with (entry_of (set_timestamp now (set_value v n))).
    2:{ unfold entry_of. simpl. by rewrite <- Hek. }
    apply Inv_promote; try done.
    + by do 2 (apply Forall2_holds_assign; [done|]).
    + unfold holds. simpl. by rewrite !list_lookup_alter_eq, Hl.
    + by do 2 (apply Forall2_holds_assign; [done|]).
  - pose proof (Inv_key_absent _ _ _ _ HI Hk) as Hne.
    rewrite find_key_absent by done.
    pose proof (Inv_insert _ _ _ _ v now HI Hk) as HI'.
    set (c1 := upd_stats size_incr _) in *.
    assert (capacity c1 = capacity c) as Hcap.
    { unfold c1. simpl. by destruct (links_only_addToHead (length (store c))
        (upd_cache (insert k (length (store c)))
           (upd_store (λ s, s ++ [mkNode k v now None None]) c))) as (-> & _). }
    assert (base.size (cache c1) = length (mkEntry k v now :: es)) as Hsz.
    { destruct HI' as [_ _ Hes' -> _]. by apply Forall2_length in Hes'. }
    clearbody c1. cbv zeta. rewrite Hsz, Hcap.
    destruct (Z.of_nat (length (mkEntry k v now :: es)) >? capacity c).
    + by eapply removeTail_refines.
    + eauto.
Qed.

(** ** The sweep *)

Lemma filter_ext_elem {A} (P Q : A → Prop) `{!∀ x, Decision (P x), !∀ x, Decision (Q x)}
    (l : list A) :
  (∀ x, x ∈ l → P x ↔ Q x) → filter P l = filter Q l.
Proof.
  induction l as [|a l IH]; [done|]. intros HPQ.
  assert (filter P l = filter Q l) as Hl.
  { apply IH. intros x Hx. apply HPQ. by right. }
  destruct (decide (P a)) as [Ha|Ha].
  - rewrite !filter_cons_True; [by rewrite Hl| |done]. apply HPQ; [left|done].
  - rewrite !filter_cons_False; [done| |done]. intros HQ. apply Ha, HPQ; [left|done].
Qed.

Lemma foldl_without ks es :
  foldl (λ es k, without k es) es ks = filter (λ e, ekey e ∉ ks) es.
Proof.
  revert es. induction ks as [|k ks IH]; intros es; simpl.
  - symmetry. induction es as [|e es IHes]; [done|].
    rewrite filter_cons_True; [by rewrite IHes|]. by intros ?%elem_of_nil.
  - rewrite IH. unfold without. rewrite list_filter_filter.
    apply list_filter_iff. intros e. unfold has_key.
    rewrite not_elem_of_cons. naive_solver.
Qed.

Lemma deletes_refine c ls es ks :
  Inv c ls es →
  ∃ ls', Inv (deleteAll ks c) ls' (foldl (λ es k, without k es) es ks).
Proof.
  unfold deleteAll.
  revert c ls es. induction ks as [|k ks IH]; intros c ls es HI; simpl; [eauto|].
  destruct (delete_refines _ _ _ k HI) as (ls1 & HI1 & _). by eapply IH.
Qed.

Lemma expiredKeys_spec c ls es now e :
  Inv c ls es → e ∈ es →
  ekey e ∈ expiredKeys now c ↔ (now - etimestamp e >? ttl c) = true.
Proof.
  intros [_ Hidx Hes _ _] He.
  destruct (Forall2_holds_elem _ _ _ _ Hes He) as (l & Hl & Hh).
  assert (cache c !! ekey e = Some l) as Hc.
  { apply Hidx. split; [done|]. by apply holds_key. }
  assert (expired now c l = (now - etimestamp e >? ttl c)) as Hexp.
  { unfold expired. unfold holds in Hh. destruct (store c !! l); by simplify_eq/=. }
  unfold expiredKeys. rewrite list_elem_of_fmap. split.
  - intros ([k l'] & Hk & [Hx Hin]%list_elem_of_filter). simpl in *.
    apply elem_of_map_to_list in Hin. simplify_eq/=. congruence.
  - intros Hx. exists (ekey e, l). split; [done|].
    apply list_elem_of_filter. split; [simpl; congruence|].
    by apply elem_of_map_to_list.
Qed.

Lemma cleanupExpired_refines c ls es now :
  Inv c ls es → ∃ ls', Inv (cleanupExpired now c) ls' (m_sweep now (ttl c) es).
Proof.
  intros HI. destruct (deletes_refine _ _ _ (expiredKeys now c) HI) as (ls' & HI').
  exists ls'. unfold cleanupExpired, m_sweep.
  rewrite foldl_without in HI'.
  rewrite (filter_ext_elem _ (λ e, ekey e ∉ expiredKeys now c)); [done|].
  intros e He. rewrite (expiredKeys_spec _ _ _ _ _ HI He).
  by destruct (now - etimestamp e >? ttl c).
Qed.

(** ** Traces *)

Lemma delete_config k c :
  capacity (delete k c).2 = capacity c ∧ ttl (delete k c).2 = ttl c.
Proof.
  unfold delete. destruct (cache c !! k) as [l|]; [|done]. simpl.
  by destruct (links_only_removeNode l c) as (-> & _ & -> & _).
Qed.

Lemma removeTail_config c :
  capacity (removeTail c) = capacity c ∧ ttl (removeTail c) = ttl c.
Proof.
  unfold removeTail. destruct (tail c) as [t|]; [|done].
  destruct (store c !! t); [|done]. simpl.
  by destruct (links_only_removeNode t c) as (-> & _ & -> & _).
Qed.

Lemma get_config now k c :
  capacity (get now k c).2 = capacity c ∧ ttl (get now k c).2 = ttl c.
Proof.
  unfold get. destruct (cache c !! k) as [l|]; [|done].
  destruct (store c !! l) as [n|]; [|done].
  destruct (_ >? _); simpl.
  - apply delete_config.
  - by destruct (links_only_moveToHead l c) as (-> & _ & -> & _).
Qed.

Lemma set_config now k v c :
  capacity (set now k v c) = capacity c ∧ ttl (set now k v c) = ttl c.
Proof.
  unfold set. destruct (cache c !! k) as [l|].
  - by destruct (links_only_moveToHead l
      (assign (set_timestamp now) l (assign (set_value v) l c))) as (-> & _ & -> & _).
  - cbv zeta.
    set (c1 := upd_stats size_incr _).
    assert (capacity c1 = capacity c ∧ ttl c1 = ttl c) as [Hc Ht].
    { unfold c1. simpl.
      by destruct (links_only_addToHead (length (store c))
        (upd_cache (insert k (length (store c)))
           (upd_store (λ s, s ++ [mkNode k v now None None]) c))) as (-> & _ & -> & _). }
    destruct (_ >? _); [|done].
    destruct (removeTail_config c1) as [-> ->]. done.
Qed.

Lemma cleanupExpired_config now c :
  capacity (cleanupExpired now c) = capacity c ∧ ttl (cleanupExpired now c) = ttl c.
Proof.
  unfold cleanupExpired, deleteAll. generalize (expiredKeys now c). intros ks.
  revert c. induction ks as [|k ks IH]; intros c; simpl; [done|].
  destruct (IH (delete k c).2) as [-> ->]. apply delete_config.
Qed.

Lemma step_config c o :
  capacity (step c o) = capacity c ∧ ttl (step c o) = ttl c.
Proof.
  destruct o; simpl; auto using get_config, set_config, delete_config,
    cleanupExpired_config.
Qed.

Lemma run_config c ops :
  capacity (run c ops) = capacity c ∧ ttl (run c ops) = ttl c.
Proof.
  revert c. induction ops as [|o ops IH]; intros c; simpl; [done|].
  destruct (IH (step c o)) as [-> ->]. apply step_config.
Qed.

Lemma step_refines c ls es o :
  Inv c ls es → ∃ ls', Inv (step c o) ls' (m_step (capacity c) (ttl c) es o).
Proof.
  intros HI. destruct o as [now k|now k v|k| |now]; simpl.
  - destruct (get_refines _ _ _ now k HI) as (ls' & ? & _). eauto.
  - by eapply set_refines.
  - destruct (delete_refines _ _ _ k HI) as (ls' & ? & _). eauto.
  - exists []. apply Inv_clear.
  - by eapply cleanupExpired_refines.
Qed.

Lemma run_refines c ls es ops :
  Inv c ls es → ∃ ls', Inv (run c ops) ls' (m_run (capacity c) (ttl c) es ops).
Proof.
  revert c ls es. induction ops as [|o ops IH]; intros c ls es HI; simpl; [eauto|].
  destruct (step_refines _ _ _ o HI) as (ls1 & HI1).
  destruct (step_config c o) as [Hc Ht].
  destruct (IH _ _ _ HI1) as (ls' & HI'). rewrite Hc, Ht in HI'. eauto.
Qed.

(** ** The list is ordered by recency of use *)

Lemma StronglySorted_sublist {A} (R R' : A → A → Prop) (l l' : list A) :
  (∀ x y, R x y → R' x y) → l' `sublist_of` l →
  StronglySorted R l → StronglySorted R' l'.
Proof.
  intros HR Hsub. induction Hsub as [|x l1 l2 Hsub IH|x l1 l2 Hsub IH].
  - constructor.
  - intros [Hx Hs]%StronglySorted_cons. apply StronglySorted_cons.
    split; [|by apply IH].
    apply Forall_forall. intros y Hy. apply HR.
    rewrite Forall_forall in Hx. apply Hx. by eapply sublist_subseteq.
  - intros [_ Hs]%StronglySorted_cons. by apply IH.
Qed.

Lemma removelast_sublist {A} (l : list A) : removelast l `sublist_of` l.
Proof.
  destruct l as [|x l _] using rev_ind; [done|].
  rewrite removelast_last. by apply sublist_inserts_r.
Qed.

Lemma without_sublist k es : without k es `sublist_of` es.
Proof. apply sublist_filter. Qed.

Lemma without_not_key k es e : e ∈ without k es → ekey e ≠ k.
Proof. by intros [? _]%list_elem_of_filter. Qed.

(** One operation: the idle count of a used key drops to zero, all others
    grow by one, and the model list stays ordered. *)
Lemma m_step_sorted c ls es o (r : string → nat) :
  Inv c ls es → StronglySorted (fresher r) es →
  StronglySorted (fresher (λ k, if uses c o k then 0%nat else S (r k)))
    (m_step (capacity c) (ttl c) es o).
Proof.
  intros HI Hs.
  assert (∀ es', es' `sublist_of` es → (∀ e, e ∈ es' → uses c o (ekey e) = false) →
     StronglySorted (fresher (λ k, if uses c o k then 0%nat else S (r k))) es') as Hsub.
  { intros es' Hsub Hno.
    assert (StronglySorted (fresher r) es') as Hs'.
    { by eapply StronglySorted_sublist; [| |exact Hs]. }
    clear -Hs' Hno. induction Hs' as [|e es' Hs' IH Hall]; [constructor|].
    constructor; [apply IH; intros; apply Hno; by right|].
    rewrite Forall_forall in *. intros e' He'. unfold fresher.
    rewrite !Hno; [|by right|left]. apply Hall in He'. unfold fresher in He'. lia. }
  assert (∀ e es', es' `sublist_of` es → uses c o (ekey e) = true →
     (∀ e', e' ∈ es' → uses c o (ekey e') = false) →
     StronglySorted (fresher (λ k, if uses c o k then 0%nat else S (r k))) (e :: es'))
    as Hfront.
  { intros e es' Hsub' He Hno. constructor; [by apply Hsub|].
    apply Forall_forall. intros e' He'. unfold fresher. rewrite He, Hno by done. lia. }
  destruct o as [now k|now k v|k| |now]; cbn [m_step].
  - assert (∀ k', uses c (OGet now k) k' =
        bool_decide (k = k') &&
        match (m_get (now 1%nat) (ttl c) k es).1 with Some _ => true | None => false end)
      as Huse.
    { intros k'. simpl. destruct (get_refines _ _ _ now k HI) as (_ & _ & Hres).
      by rewrite Hres. }
    unfold m_get in *. destruct (find_key k es) as [e|] eqn:Hf.
    + apply find_key_Some in Hf as [Hek _].
      destruct (_ >? _); cbn [snd fst] in *.
      * apply Hsub; [apply without_sublist|]. intros. by rewrite Huse, andb_false_r.
      * apply Hfront; [apply without_sublist| |].
        { by rewrite Huse, bool_decide_eq_true_2. }
        intros e' He'%without_not_key. by rewrite Huse, bool_decide_eq_false_2.
    + apply Hsub; [done|]. intros. by rewrite Huse, andb_false_r.
  - unfold m_set. destruct (find_key k es) as [e|] eqn:Hf.
    + apply Hfront; [apply without_sublist| |].
      { by apply bool_decide_eq_true_2. }
      intros e' He'%without_not_key. by apply bool_decide_eq_false_2.
    + assert (k ∉ ekey <$> es) as Hk.
      { intros (e & -> & He)%list_elem_of_fmap.
        destruct (Forall2_holds_elem _ _ _ _ (inv_entries _ _ _ HI) He) as (l & Hl & Hh).
        assert (cache c !! ekey e = Some l) as Hc.
        { apply (inv_index _ _ _ HI). split; [done|]. by apply holds_key. }
        destruct (Inv_split _ _ _ _ _ HI Hc)
          as (l1 & l2 & e' & es1 & es2 & _ & -> & _ & _ & _ & Hek & Hk1 & _).
        by rewrite find_key_present in Hf. }
      assert (StronglySorted
                (fresher (λ k0, if uses c (OSet now k v) k0 then 0%nat else S (r k0)))
                (mkEntry k v now :: es)) as Hs'.
      { apply (Hfront (mkEntry k v now) es); [done| |].
        - by apply bool_decide_eq_true_2.
        - intros e' He'. apply bool_decide_eq_false_2. intros ->.
          apply Hk. by apply list_elem_of_fmap_2. }
      cbv zeta. destruct (_ >? _); [|done].
      eapply StronglySorted_sublist; [|apply removelast_sublist|exact Hs']. done.
  - apply Hsub; [apply without_sublist|done].
  - constructor.
  - apply Hsub; [apply sublist_filter|done].
Qed.

Lemma run_sorted c ls es ops (r : string → nat) :
  Inv c ls es → StronglySorted (fresher r) es →
  StronglySorted (fresher (λ k, idle c ops k (r k)))
    (m_run (capacity c) (ttl c) es ops).
Proof.
  revert c ls es r. induction ops as [|o ops IH]; intros c ls es r HI Hs; simpl; [done|].
  destruct (step_refines _ _ _ o HI) as (ls1 & HI1).
  destruct (step_config c o) as [Hc Ht].
  pose proof (IH _ _ _ _ HI1 (m_step_sorted _ _ _ o _ HI Hs)) as Hs'.
  by rewrite Hc, Ht in Hs'.
Qed.

(** Every state reached from the constructor satisfies the invariant with
    the entries of the reference model, ordered by recency of use. *)
Lemma reachable cap ttlSeconds ops :
  let c0 := constructor cap ttlSeconds in
  ∃ ls, Inv (run c0 ops) ls (m_run cap (ttl c0) [] ops) ∧
        StronglySorted (fresher (since_use c0 ops)) (m_run cap (ttl c0) [] ops).
Proof.
  intros c0.
  destruct (run_refines c0 [] [] ops (Inv_constructor _ _)) as (ls & HI).
  exists ls. split; [done|].
  apply (run_sorted c0 [] [] ops (λ _, 0%nat) (Inv_constructor _ _)). constructor.
Qed.

(** ** Further consequences of the invariant *)

Lemma Inv_live c ls es k :
  Inv c ls es → is_Some (cache c !! k) ↔ k ∈ ekey <$> es.
Proof.
  intros HI. split.
  - intros [l Hk].
    destruct (Inv_split _ _ _ _ _ HI Hk)
      as (l1 & l2 & e & es1 & es2 & _ & -> & _ & _ & _ & <- & _).
    apply list_elem_of_fmap_2, elem_of_app. right. left.
  - intros Hk. destruct (cache c !! k) eqn:Hc; [eauto|].
    by apply (Inv_key_absent _ _ _ _ HI) in Hc.
Qed.

Lemma Inv_node c ls es l :
  Inv c ls es → l ∈ ls →
  ∃ n, store c !! l = Some n ∧ cache c !! key n = Some l ∧ entry_of n ∈ es.
Proof.
  intros [[Hs _] Hidx Hes _ _] Hl.
  destruct (dllseg_lookup _ _ _ _ _ _ _ Hs Hl) as [n Hn]. exists n.
  split; [done|]. split; [apply Hidx; by rewrite Hn|].
  apply list_elem_of_lookup in Hl as [i Hi].
  destruct (Forall2_lookup_l _ _ _ _ _ Hes Hi) as (e & He & Hh).
  unfold holds in Hh. rewrite Hn in Hh. simplify_eq/=.
  by eapply list_elem_of_lookup_2.
Qed.

Lemma Inv_ends c ls es :
  Inv c ls es → head c = ls !! 0%nat ∧ tail c = last ls.
Proof.
  intros [[Hs _] _ _ _ _]. split.
  - apply dllseg_first in Hs. by destruct ls.
  - apply dllseg_last in Hs. by destruct (last ls).
Qed.

Lemma Inv_tail c ls t es :
  Inv c (ls ++ [t]) es →
  ∃ es1 n, es = es1 ++ [entry_of n] ∧ tail c = Some t ∧ store c !! t = Some n ∧
           cache c !! key n = Some t ∧ Forall2 (holds c) ls es1.
Proof.
  intros HI. pose proof HI as [_ Hidx Hes _ _].
  destruct (Inv_ends _ _ _ HI) as [_ Ht]. rewrite last_snoc in Ht.
  apply Forall2_app_inv_l in Hes as (es1 & es2 & H1 & H2 & ->).
  apply Forall2_cons_inv_l in H2 as (e & es3 & He & ->%Forall2_nil_inv_l & ->).
  unfold holds in He. destruct (store c !! t) as [n|] eqn:Hn; [|done].
  simplify_eq/=. exists es1, n. split_and!; try done.
  apply Hidx. rewrite Hn. split; [|done]. apply elem_of_app. right. left.
Qed.

Lemma Inv_head c l ls es :
  Inv c (l :: ls) es →
  ∃ n es2, es = entry_of n :: es2 ∧ head c = Some l ∧ store c !! l = Some n ∧
           cache c !! key n = Some l.
Proof.
  intros HI. pose proof HI as [_ Hidx Hes _ _].
  destruct (Inv_ends _ _ _ HI) as [Hh _]. simpl in Hh.
  apply Forall2_cons_inv_l in Hes as (e & es2 & He & _ & ->).
  unfold holds in He. destruct (store c !! l) as [n|] eqn:Hn; [|done].
  simplify_eq/=. exists n, es2. split_and!; try done.
  apply Hidx. rewrite Hn. split; [left|done].
Qed.

(** The list of a state is determined by the state. *)
Lemma dllseg_functional h prv cur ls1 ls2 lst1 lst2 :
  dllseg h prv cur ls1 lst1 None → dllseg h prv cur ls2 lst2 None → ls1 = ls2.
Proof.
  revert prv cur ls2. induction ls1 as [|l ls1 IH]; intros prv cur ls2; simpl.
  - intros [-> _]. destruct ls2; simpl; [done|]. by intros [? _].
  - intros (-> & n & Hn & Hp & Hs). destruct ls2 as [|l' ls2]; simpl; [by intros [? _]|].
    intros ([= <-] & n' & Hn' & Hp' & Hs'). simplify_eq. f_equal. by eapply IH.
Qed.

Lemma recency_list_functional c ls1 ls2 :
  recency_list c ls1 → recency_list c ls2 → ls1 = ls2.
Proof. intros [H1 _] [H2 _]. by eapply dllseg_functional. Qed.

(** ** The reference model never grows beyond the capacity *)

Lemma length_without k es : (length (without k es) ≤ length es)%nat.
Proof. apply length_filter. Qed.

Lemma length_removelast {A} (l : list A) : length (removelast l) = pred (length l).
Proof.
  destruct l as [|x l _] using rev_ind; [done|].
  rewrite removelast_last, length_app. simpl. lia.
Qed.

Lemma m_step_length capacity ttl es o :
  Z.of_nat (length es) ≤ Z.max capacity 0 →
  Z.of_nat (length (m_step capacity ttl es o)) ≤ Z.max capacity 0.
Proof.
  intros Hle. destruct o as [now k|now k v|k| |now]; simpl.
  - unfold m_get. destruct (find_key k es) as [e|] eqn:Hf; [|done].
    destruct (_ >? _); simpl; [pose proof (length_without k es); lia|].
    apply find_key_Some in Hf as [Hk [i Hi]%list_elem_of_lookup].
    pose proof (take_drop_middle _ _ _ Hi) as Hes.
    assert (length (without k es) < length es)%nat; [|lia].
    rewrite <- Hes at 1. unfold without. rewrite filter_app, filter_cons_False by tauto.
    rewrite <- Hes at 3. rewrite !length_app. simpl.
    pose proof (length_filter (λ e, ¬ has_key k e) (take i es)).
    pose proof (length_filter (λ e, ¬ has_key k e) (drop (S i) es)). lia.
  - unfold m_set. destruct (find_key k es) as [e|] eqn:Hf.
    + apply find_key_Some in Hf as [Hk [i Hi]%list_elem_of_lookup].
      pose proof (take_drop_middle _ _ _ Hi) as Hes.
      assert (length (without k es) < length es)%nat; [|simpl; lia].
      rewrite <- Hes at 1. unfold without. rewrite filter_app, filter_cons_False by tauto.
      rewrite <- Hes at 3. rewrite !length_app. simpl.
      pose proof (length_filter (λ e, ¬ has_key k e) (take i es)).
      pose proof (length_filter (λ e, ¬ has_key k e) (drop (S i) es)). lia.
    + cbv zeta. destruct (_ >? _) eqn:Hgt.
      * rewrite length_removelast. simpl. lia.
      * rewrite Z.gtb_ltb in Hgt. apply Z.ltb_ge in Hgt. lia.
  - pose proof (length_without k es). lia.
  - lia.
  - unfold m_sweep.
    pose proof (length_filter (λ e, (now - etimestamp e >? ttl) = false) es). lia.
Qed.

Lemma m_run_length capacity ttl es ops :
  Z.of_nat (length es) ≤ Z.max capacity 0 →
  Z.of_nat (length (m_run capacity ttl es ops)) ≤ Z.max capacity 0.
Proof.
  revert es. induction ops as [|o ops IH]; intros es Hle; simpl; [done|].
  by apply IH, m_step_length.
Qed.

Lemma Inv_length c ls es : Inv c ls es → base.size (cache c) = length es.
Proof. intros [_ _ Hes -> _]. by apply Forall2_length in Hes. Qed.

(** ** Eviction *)

Lemma removeTail_cache c ls t es :
  Inv c (ls ++ [t]) es →
  ∃ n, tail c = Some t ∧ store c !! t = Some n ∧ cache c !! key n = Some t ∧
       cache (removeTail c) = base.delete (key n) (cache c) ∧
       recency_list (removeTail c) ls.
Proof.
  intros HI. destruct (Inv_tail _ _ _ _ HI) as (es1 & n & -> & Ht & Hn & Hc & H1).
  exists n. split_and!; try done.
  - unfold removeTail. rewrite Ht, Hn. simpl.
    by destruct (links_only_removeNode t c) as (_ & -> & _).
  - unfold removeTail. rewrite Ht, Hn.
    rewrite <- (app_nil_r ls). apply (removeNode_list c ls t []).
    by destruct HI.
Qed.

Lemma set_evicts c ls t es now k v :
  Inv c (ls ++ [t]) es → cache c !! k = None →
  capacity c ≤ Z.of_nat (base.size (cache c)) →
  ∃ n, tail c = Some t ∧ store c !! t = Some n ∧ cache c !! key n = Some t ∧
       cache (set now k v c) =
         <[k := length (store c)]> (base.delete (key n) (cache c)).
Proof.
  intros HI Hk Hfull.
  destruct (Inv_tail _ _ _ _ HI) as (es1 & n & -> & Ht & Hn & Hc & H1).
  exists n. split_and!; try done.
  pose proof (Inv_insert _ _ _ _ v now HI Hk) as HI'.
  unfold set. rewrite Hk. cbv zeta.
  set (l := length (store c)) in *.
  set (c1 := upd_stats size_incr _) in *.
  assert (cache c1 = <[k:=l]> (cache c)) as Hc1.
  { unfold c1. simpl. by destruct (links_only_addToHead l
      (upd_cache (insert k l)
         (upd_store (λ s, s ++ [mkNode k v now None None]) c))) as (_ & -> & _). }
  assert (capacity c1 = capacity c) as Hcap.
  { unfold c1. simpl. by destruct (links_only_addToHead l
      (upd_cache (insert k l)
         (upd_store (λ s, s ++ [mkNode k v now None None]) c))) as (-> & _). }
  clearbody c1.
  rewrite Hc1 at 1. rewrite map_size_insert_None, Hcap by done.
  destruct (_ >? _) eqn:Hgt; [|rewrite Z.gtb_ltb in Hgt; apply Z.ltb_ge in Hgt; lia].
  rewrite app_comm_cons in HI'.
  destruct (removeTail_cache _ _ _ _ HI') as (n' & _ & Hn' & Hc' & -> & _).
  assert (key n' = key n) as ->.
  { rewrite Hc1 in Hc'. apply lookup_insert_Some in Hc' as [[_ <-]|[_ Hc']].
    - apply lookup_lt_Some in Hn. unfold l in Hn. lia.
    - apply (inv_index _ _ _ HI) in Hc' as [_ Hkey]. rewrite Hn in Hkey.
      by simplify_eq/=. }
  rewrite Hc1. apply delete_insert_ne. intros Heq. rewrite Heq in Hc. congruence.
Qed.

(** ** The branches of [get] and [delete] on an arbitrary state *)

Lemma get_absent c now k :
  cache c !! k = None →
  get now k c =
    (None, recordResponseTime (now 1%nat - now 0%nat) (upd_stats misses_incr c)).
Proof. intros Hk. unfold get. by rewrite Hk. Qed.

Lemma get_expired c now k l n :
  cache c !! k = Some l → store c !! l = Some n → now 1%nat - timestamp n > ttl c →
  get now k c =
    (None, recordResponseTime (now 2%nat - now 0%nat)
             (upd_stats misses_incr (delete k c).2)).
Proof.
  intros Hk Hn Hexp. unfold get. rewrite Hk, Hn.
  by rewrite (proj2 (Z.gtb_gt _ _) Hexp).
Qed.

Lemma get_live c now k l n :
  cache c !! k = Some l → store c !! l = Some n → now 1%nat - timestamp n ≤ ttl c →
  get now k c =
    (Some (value n),
     recordResponseTime (now 2%nat - now 0%nat)
       (upd_stats hits_incr (moveToHead l c))).
Proof.
  intros Hk Hn Hlive. unfold get. rewrite Hk, Hn.
  assert ((now 1%nat - timestamp n >? ttl c) = false) as ->.
  { rewrite Z.gtb_ltb. by apply Z.ltb_ge. }
  cbv zeta. f_equal. simpl.
  destruct (links_only_moveToHead l c) as (_&_&_&_&_&_&Hent).
  by rewrite value_of_entry, Hent, Hn.
Qed.

Lemma delete_cache k c : cache (delete k c).2 = base.delete k (cache c).
Proof.
  unfold delete. destruct (cache c !! k) as [l|] eqn:Hk; simpl.
  - by destruct (links_only_removeNode l c) as (_ & -> & _).
  - by rewrite delete_id.
Qed.

Lemma delete_store_entry k c x :
  entry_of <$> store (delete k c).2 !! x = entry_of <$> store c !! x.
Proof.
  unfold delete. destruct (cache c !! k) as [l|]; simpl; [|done].
  by destruct (links_only_removeNode l c) as (_&_&_&_&_&_&->).
Qed.

Lemma deletes_cache ks c k :
  cache (deleteAll ks c) !! k = if decide (k ∈ ks) then None else cache c !! k.
Proof.
  unfold deleteAll. revert c. induction ks as [|k' ks IH]; intros c; cbn [foldl].
  - by rewrite decide_False by apply not_elem_of_nil.
  - rewrite IH, delete_cache. destruct (decide (k ∈ ks)) as [Hin|Hin].
    + by rewrite decide_True by (by right).
    + destruct (decide (k = k')) as [->|Hne].
      * rewrite decide_True by left. apply lookup_delete_eq.
      * rewrite decide_False by (by intros [?|?]%elem_of_cons).
        by apply lookup_delete_ne.
Qed.

Lemma elem_of_expiredKeys now c k :
  k ∈ expiredKeys now c ↔ ∃ l, cache c !! k = Some l ∧ expired now c l = true.
Proof.
  unfold expiredKeys. rewrite list_elem_of_fmap. split.
  - intros ([k' l] & -> & [Hx Hin]%list_elem_of_filter).
    apply elem_of_map_to_list in Hin. by exists l.
  - intros (l & Hk & Hx). exists (k, l). split; [done|].
    apply list_elem_of_filter. split; [done|]. by apply elem_of_map_to_list.
Qed.

(** Removal of an indexed node, seen on the list. *)
Lemma delete_list c ls es k l :
  Inv c ls es → cache c !! k = Some l →
  ∀ ls', recency_list c ls' →
    ∃ l1 l2, ls' = l1 ++ l :: l2 ∧ recency_list (delete k c).2 (l1 ++ l2).
Proof.
  intros HI Hk ls' Hls'.
  assert (ls' = ls) as -> by (eapply recency_list_functional; [done|by destruct HI]).
  destruct (Inv_split _ _ _ _ _ HI Hk) as (l1 & l2 & e & es1 & es2 & -> & _).
  exists l1, l2. split; [done|]. unfold delete. rewrite Hk. simpl.
  by apply (removeNode_list c l1 l l2).
Qed.

(** ** Evaluating the reference model *)

Lemma m_set_new cap now k v es :
  k ∉ ekey <$> es → Z.of_nat (S (length es)) ≤ cap →
  m_set cap now k v es = mkEntry k v now :: es.
Proof.
  intros Hk Hle. unfold m_set. rewrite find_key_absent by done. cbv zeta.
  assert ((Z.of_nat (length (mkEntry k v now :: es)) >? cap) = false) as ->; [|done].
  rewrite Z.gtb_ltb. apply Z.ltb_ge. simpl. lia.
Qed.

Lemma m_set_new_full cap now k v es :
  k ∉ ekey <$> es → cap < Z.of_nat (S (length es)) →
  m_set cap now k v es = removelast (mkEntry k v now :: es).
Proof.
  intros Hk Hlt. unfold m_set. rewrite find_key_absent by done. cbv zeta.
  assert ((Z.of_nat (length (mkEntry k v now :: es)) >? cap) = true) as ->; [|done].
  apply Z.gtb_gt. simpl. lia.
Qed.

Lemma m_get_live now1 ttl k e es1 es2 :
  ekey e = k → k ∉ ekey <$> es1 → k ∉ ekey <$> es2 → now1 - etimestamp e ≤ ttl →
  m_get now1 ttl k (es1 ++ e :: es2) = (Some (evalue e), e :: es1 ++ es2).
Proof.
  intros He H1 H2 Hlive. unfold m_get.
  rewrite find_key_present, without_present by done.
  assert ((now1 - etimestamp e >? ttl) = false) as ->; [|done].
  rewrite Z.gtb_ltb. by apply Z.ltb_ge.
Qed.

Ltac solve_not_elem :=
  simpl; repeat (apply not_elem_of_cons; split; [congruence|]); apply not_elem_of_nil.

Lemma Inv_stored c ls es e :
  Inv c ls es → e ∈ es → stored c (ekey e) (evalue e) (etimestamp e).
Proof.
  intros [_ Hidx Hes _ _] He.
  destruct (Forall2_holds_elem _ _ _ _ Hes He) as (l & Hl & Hh).
  exists l. split; [apply Hidx; eauto using holds_key|]. by destruct e.
Qed.

(** ** Claims *)

(** C1. For every capacity [>= 1] and every sequence of [set] calls on a
    freshly constructed cache, the reported size equals the number of indexed
    keys and never exceeds the capacity; and when the cache is full, a [set]
    of a key that is not present evicts exactly one entry, the one at the
    tail of the recency list, which is the least recently used live key. *)
Theorem C1_capacity_bound_and_lru_eviction
    (cap : Z) (ttlSeconds : option Z) (calls : list (Z * string * T)) :
  1 ≤ cap →
  let c0 := constructor cap ttlSeconds in
  let c := run c0 (sets calls) in
  size (getStats c) = Z.of_nat (base.size (cache c)) ∧
  Z.of_nat (base.size (cache c)) ≤ cap ∧
  ∀ now k v,
    cache c !! k = None → Z.of_nat (base.size (cache c)) = cap →
    ∃ t n,
      tail c = Some t ∧ store c !! t = Some n ∧ cache c !! key n = Some t ∧
      cache (set now k v c) =
        <[k := length (store c)]> (base.delete (key n) (cache c)) ∧
      base.size (cache (set now k v c)) = base.size (cache c) ∧
      ∀ k', is_Some (cache c !! k') → k' ≠ key n →
            (since_use c0 (sets calls) k' < since_use c0 (sets calls) (key n))%nat.
Proof.
  intros Hcap c0 c.
  destruct (reachable cap ttlSeconds (sets calls)) as (ls & HI & Hsorted).
  fold c0 c in HI, Hsorted.
  set (es := m_run cap (ttl c0) [] (sets calls)) in *.
  pose proof (Inv_length _ _ _ HI) as Hlen.
  assert (Z.of_nat (length es) ≤ cap) as Hle.
  { pose proof (m_run_length cap (ttl c0) [] (sets calls)) as Hm.
    fold es in Hm. simpl in Hm. lia. }
  split; [by destruct HI|]. split; [lia|].
  intros now k v Hk Hfull.
  destruct ls as [|t ls _] using rev_ind.
  { destruct HI as [_ _ _ Hcnt _]. simpl in Hcnt. lia. }
  assert (capacity c = cap) as Hc by apply run_config.
  destruct (set_evicts _ _ _ _ now k v HI Hk) as (n & Ht & Hn & Hkn & Hset); [lia|].
  exists t, n. split_and!; try done.
  - rewrite Hset, map_size_insert_None, map_size_delete_Some by
      (by rewrite ?lookup_delete_ne by congruence).
    destruct (base.size (cache c)); lia.
  - intros k' [l' Hk'] Hne.
    destruct (Inv_tail _ _ _ _ HI) as (es1 & n' & Hes & _ & Hn' & _ & H1).
    assert (n' = n) as -> by congruence.
    destruct (Inv_split _ _ _ _ _ HI Hk')
      as (l1 & l2 & e' & es1' & es2' & Hls & Hes' & _ & Hh & _ & Hek & _).
    assert (e' ∈ es1) as Hin.
    { assert (e' ∈ es) as He' by (rewrite Hes'; apply elem_of_app; right; left).
      rewrite Hes in He'. apply elem_of_app in He' as [?|Hx]; [done|].
      apply list_elem_of_singleton in Hx. subst e'. by destruct Hne. }
    rewrite Hes in Hsorted.
    pose proof (StronglySorted_app_1_elem_of _ _ _ e' (entry_of n) Hsorted Hin) as Hf.
    unfold fresher in Hf. simpl in Hf. rewrite Hek in Hf. apply Hf. left.
Qed.

(** C2. After every operation of any trace from the constructor, the index
    and the recency list hold exactly the same nodes, each list node once;
    the head of the list is the most recently used live entry and the tail
    is the least recently used one, which is what a capacity eviction
    removes. *)
Theorem C2_index_and_list_agree
    (cap : Z) (ttlSeconds : option Z) (ops : list Op) :
  let c0 := constructor cap ttlSeconds in
  let c := run c0 ops in
  ∃ ls : list ref,
    recency_list c ls ∧
    (∀ k l, cache c !! k = Some l ↔ l ∈ ls ∧ key <$> store c !! l = Some k) ∧
    (∀ l, l ∈ ls → ∃ n, store c !! l = Some n ∧ cache c !! key n = Some l) ∧
    base.size (cache c) = length ls ∧
    head c = ls !! 0%nat ∧ tail c = last ls ∧
    (∀ l n, head c = Some l → store c !! l = Some n →
       ∀ k', is_Some (cache c !! k') → k' ≠ key n →
             (since_use c0 ops (key n) < since_use c0 ops k')%nat) ∧
    (∀ t n, tail c = Some t → store c !! t = Some n →
       (∀ k', is_Some (cache c !! k') → k' ≠ key n →
              (since_use c0 ops k' < since_use c0 ops (key n))%nat) ∧
       cache (removeTail c) = base.delete (key n) (cache c) ∧
       recency_list (removeTail c) (removelast ls)).
Proof.
  intros c0 c.
  destruct (reachable cap ttlSeconds ops) as (ls & HI & Hsorted).
  fold c0 c in HI, Hsorted.
  set (es := m_run cap (ttl c0) [] ops) in *.
  destruct (Inv_ends _ _ _ HI) as [Hhd Htl].
  exists ls. split_and!; try done; try by destruct HI.
  - intros l Hl. destruct (Inv_node _ _ _ _ HI Hl) as (n & ? & ? & _). eauto.
  - intros l n Hl Hn k' [l' Hk'] Hne.
    destruct ls as [|l0 ls]; [by rewrite Hhd in Hl|].
    rewrite Hhd in Hl. simplify_eq/=.
    destruct (Inv_head _ _ _ _ HI) as (n' & es2 & Hes & _ & Hn' & _).
    assert (n' = n) as -> by congruence.
    destruct (Inv_split _ _ _ _ _ HI Hk')
      as (l1 & l2 & e' & es1' & es2' & Hls & Hes' & _ & Hh & _ & Hek & _).
    assert (e' ∈ es2) as Hin.
    { assert (e' ∈ es) as He' by (rewrite Hes'; apply elem_of_app; right; left).
      rewrite Hes in He'. apply elem_of_cons in He' as [Hx|?]; [|done].
      subst e'. by destruct Hne. }
    rewrite Hes in Hsorted. apply StronglySorted_cons in Hsorted as [Hall _].
    rewrite Forall_forall in Hall. apply Hall in Hin.
    unfold fresher in Hin. simpl in Hin. by rewrite Hek in Hin.
  - intros t n Ht Hn.
    destruct ls as [|t0 ls _] using rev_ind; [by rewrite Htl in Ht|].
    rewrite Htl, last_snoc in Ht. simplify_eq/=.
    destruct (Inv_tail _ _ _ _ HI) as (es1 & n' & Hes & _ & Hn' & _ & H1).
    assert (n' = n) as -> by congruence.
    destruct (removeTail_cache _ _ _ _ HI) as (n' & _ & Hn'' & _ & Hrc & Hrl).
    assert (n' = n) as -> by congruence.
    rewrite removelast_last. split_and!; try done.
    intros k' [l' Hk'] Hne.
    destruct (Inv_split _ _ _ _ _ HI Hk')
      as (l1 & l2 & e' & es1' & es2' & Hls & Hes' & _ & Hh & _ & Hek & _).
    assert (e' ∈ es1) as Hin.
    { assert (e' ∈ es) as He' by (rewrite Hes'; apply elem_of_app; right; left).
      rewrite Hes in He'. apply elem_of_app in He' as [?|Hx]; [done|].
      apply list_elem_of_singleton in Hx. subst e'. by destruct Hne. }
    rewrite Hes in Hsorted.
    pose proof (StronglySorted_app_1_elem_of _ _ _ e' (entry_of n) Hsorted Hin) as Hf.
    unfold fresher in Hf. simpl in Hf. rewrite Hek in Hf. apply Hf. left.
Qed.

(** C3. With capacity 3, after [set A], [set B], [set C], a [get A] that
    finds [A] within its TTL, and [set D]: the [get] returned the value of
    [A] and left [B] at the tail of the list, and afterwards [A], [C] and [D]
    are indexed with the values and time stamps their [set] wrote, while [B]
    is not indexed. *)
Theorem C3_get_promotes
    (ttlSeconds : option Z) (kA kB kC kD : string) (vA vB vC vD : T)
    (tA tB tC tD : Z) (now : nat → Z) :
  kA ≠ kB → kA ≠ kC → kA ≠ kD → kB ≠ kC → kB ≠ kD → kC ≠ kD →
  now 1%nat - tA ≤ default 60 ttlSeconds * 1000 →
  let c3 := run (constructor 3 ttlSeconds)
                [OSet tA kA vA; OSet tB kB vB; OSet tC kC vC] in
  let c4 := (get now kA c3).2 in
  let c := set tD kD vD c4 in
  (get now kA c3).1 = Some vA ∧
  (∃ t n, tail c4 = Some t ∧ store c4 !! t = Some n ∧ key n = kB) ∧
  stored c kA vA tA ∧ stored c kC vC tC ∧ stored c kD vD tD ∧
  cache c !! kB = None.
Proof.
  intros HAB HAC HAD HBC HBD HCD Hlive c3 c4 c.
  set (c0 := constructor 3 ttlSeconds) in *.
  destruct (run_refines c0 [] [] [OSet tA kA vA; OSet tB kB vB; OSet tC kC vC]
              (Inv_constructor _ _)) as (ls3 & HI3).
  change (run c0 _) with c3 in HI3.
  assert (ttl c3 = default 60 ttlSeconds * 1000) as Httl by apply run_config.
  assert (capacity c3 = 3) as Hcap by apply run_config.
  clearbody c3. cbn [m_run foldl m_step] in HI3.
  change (capacity c0) with 3 in HI3.
  rewrite (m_set_new 3 tA kA vA []) in HI3 by (solve_not_elem || (simpl; lia)).
  rewrite (m_set_new 3 tB kB vB) in HI3 by (solve_not_elem || (simpl; lia)).
  rewrite (m_set_new 3 tC kC vC) in HI3 by (solve_not_elem || (simpl; lia)).
  destruct (get_refines _ _ _ now kA HI3) as (ls4 & HI4 & Hres).
  fold c4 in HI4.
  assert (m_get (now 1%nat) (ttl c3) kA
            [mkEntry kC vC tC; mkEntry kB vB tB; mkEntry kA vA tA] =
          (Some vA, [mkEntry kA vA tA; mkEntry kC vC tC; mkEntry kB vB tB])) as Hget.
  { apply (m_get_live _ _ kA (mkEntry kA vA tA)
             [mkEntry kC vC tC; mkEntry kB vB tB] []);
      (done || solve_not_elem || (simpl; lia)). }
  rewrite Hget in HI4, Hres. cbn [fst snd] in HI4, Hres.
  assert (capacity c4 = 3) as Hcap4.
  { unfold c4. destruct (get_config now kA c3) as [-> _]. done. }
  clearbody c4.
  destruct (set_refines _ _ _ tD kD vD HI4) as (ls & HI). fold c in HI.
  rewrite Hcap4, m_set_new_full in HI by (solve_not_elem || (simpl; lia)).
  clearbody c. cbn [removelast] in HI.
  split; [done|]. split.
  - pose proof (Forall2_length _ _ _ (inv_entries _ _ _ HI4)) as Hlen.
    destruct ls4 as [|a [|b [|t [|? ?]]]]; try done.
    destruct (Inv_tail c4 [a; b] t _ HI4) as (es1 & n & Hes & Ht & Hn & _ & H1).
    exists t, n. split_and!; try done.
    apply Forall2_length in H1. destruct es1 as [|? [|? [|? ?]]]; try done.
    simpl in Hes. injection Hes as _ _ Hes. by destruct n; simplify_eq/=.
  - split_and!.
    + apply (Inv_stored _ _ _ (mkEntry kA vA tA) HI). set_solver.
    + apply (Inv_stored _ _ _ (mkEntry kC vC tC) HI). set_solver.
    + apply (Inv_stored _ _ _ (mkEntry kD vD tD) HI). set_solver.
    + destruct (cache c !! kB) eqn:Hc; [|done].
      assert (kB ∈ ekey <$> [mkEntry kD vD tD; mkEntry kA vA tA; mkEntry kC vC tC]) as Hin.
      { apply (Inv_live _ _ _ _ HI). eauto. }
      simpl in Hin. set_solver.
Qed.

(** C4. On any reachable state, a [get] of an indexed key whose age strictly
    exceeds the TTL returns [null]; the entry leaves the index and the
    recency list; [misses] grows by one and [hits] does not change; one
    latency sample is appended; and the whole outcome is that of a [get] of
    the same key on the state from which the entry has been deleted. *)
Theorem C4_expired_get_is_a_miss
    (cap : Z) (ttlSeconds : option Z) (ops : list Op)
    (now : nat → Z) (k : string) (l : ref) (n : CacheNode) :
  let c := run (constructor cap ttlSeconds) ops in
  cache c !! k = Some l → store c !! l = Some n →
  now 1%nat - timestamp n > ttl c →
  let r := get now k c in
  r.1 = None ∧
  cache r.2 = base.delete k (cache c) ∧
  (∀ ls, recency_list c ls →
     ∃ l1 l2, ls = l1 ++ l :: l2 ∧ recency_list r.2 (l1 ++ l2)) ∧
  misses (stats r.2) = misses (stats c) + 1 ∧
  hits (stats r.2) = hits (stats c) ∧
  responseTimes r.2 =
    (let s := responseTimes c ++ [now 2%nat - now 0%nat] in
     if (100 <? length s)%nat then List.tl s else s) ∧
  r = get (λ i, match i with O => now 0%nat | S _ => now 2%nat end) k (delete k c).2.
Proof.
  intros c Hk Hn Hexp r.
  destruct (reachable cap ttlSeconds ops) as (ls & HI & _). fold c in HI.
  unfold r. rewrite (get_expired _ _ _ _ _ Hk Hn Hexp). simpl.
  split_and!; try done.
  - apply delete_cache.
  - intros ls' Hls'. by eapply delete_list.
  - unfold delete. rewrite Hk. simpl.
    by destruct (links_only_removeNode l c) as (_&_&_&->&_).
  - unfold delete. rewrite Hk. simpl.
    by destruct (links_only_removeNode l c) as (_&_&_&->&_).
  - unfold delete. rewrite Hk. simpl.
    by destruct (links_only_removeNode l c) as (_&_&_&_&->&_).
  - rewrite get_absent; [done|]. rewrite delete_cache. apply lookup_delete_eq.
Qed.

(** C5 (as the code has it). A [get] of a live entry returns its value and
    promotes it but leaves its time stamp as the last [set] wrote it: the
    next [get] and the sweep still measure the age from that [set]. *)
Theorem C5_get_keeps_timestamp
    (c : LRUCache) (now : nat → Z) (k : string) (l : ref) (n : CacheNode) :
  cache c !! k = Some l → store c !! l = Some n →
  now 1%nat - timestamp n ≤ ttl c →
  let c' := (get now k c).2 in
  (get now k c).1 = Some (value n) ∧
  cache c' !! k = Some l ∧
  timestamp <$> store c' !! l = Some (timestamp n) ∧
  (∀ now', (get now' k c').1 =
           if now' 1%nat - timestamp n >? ttl c then None else Some (value n)) ∧
  (∀ t, expired t c' l = (t - timestamp n >? ttl c)).
Proof.
  intros Hk Hn Hlive c'. unfold c'. rewrite (get_live _ _ _ _ _ Hk Hn Hlive). simpl.
  destruct (links_only_moveToHead l c) as (_ & Hc & Httl & _ & _ & _ & Hent).
  specialize (Hent l). rewrite Hn in Hent. simpl in Hent.
  destruct (store (moveToHead l c) !! l) as [n'|] eqn:Hn'; [|done].
  simpl in Hent. injection Hent as Hkey Hval Hts.
  split_and!; try done.
  - by rewrite Hc.
  - simpl. by rewrite Hts.
  - intros now'.
    set (c1 := recordResponseTime _ _).
    assert (cache c1 !! k = Some l) as Hk1 by (simpl; by rewrite Hc).
    assert (store c1 !! l = Some n') as Hn1 by done.
    assert (ttl c1 = ttl c) as Httl1 by done.
    destruct (now' 1%nat - timestamp n >? ttl c) eqn:Hx.
    + apply Z.gtb_gt in Hx.
      rewrite (get_expired c1 now' k l n'); [done..|]. rewrite Hts, Httl1. lia.
    + rewrite Z.gtb_ltb in Hx. apply Z.ltb_ge in Hx.
      rewrite (get_live c1 now' k l n'); [by rewrite Hval|done..|].
      rewrite Hts, Httl1. lia.
  - intros t. unfold expired. simpl. by rewrite Hn', Hts, Httl.
Qed.


Lemma get_results_empty c calls :
  cache c = ∅ → Forall (λ r, r = None) (get_results c calls).
Proof.
  revert c. induction calls as [|[now k] calls IH]; intros c Hc; simpl; [constructor|].
  assert (cache c !! k = None) as Hk by (by rewrite Hc, lookup_empty).
  rewrite (get_absent _ _ _ Hk). simpl. constructor; [done|]. by apply IH.
Qed.

(** C8. Whatever the state, after [clear] the index and the recency list are
    empty, the reported size is zero, every [get] that follows misses, the
    window of latency samples is empty, and the hit and miss counters, the
    capacity and the TTL are what they were before. *)
Theorem C8_clear (c : LRUCache) (calls : list ((nat → Z) * string)) :
  let c' := clear c in
  cache c' = ∅ ∧ recency_list c' [] ∧ head c' = None ∧ tail c' = None ∧
  size (getStats c') = 0 ∧ base.size (cache c') = 0%nat ∧
  Forall (λ r, r = None) (get_results c' calls) ∧
  responseTimes c' = [] ∧
  hits (getStats c') = hits (getStats c) ∧
  misses (getStats c') = misses (getStats c) ∧
  capacity c' = capacity c ∧ ttl c' = ttl c.
Proof.
  intros c'. split_and!; try done.
  - split; [done|constructor].
  - by apply get_results_empty.
Qed.

(** C9. On any reachable state, [delete] of an indexed key returns [true],
    removes the key from the index and its node from the recency list, and
    lowers the entry count and the reported size by exactly one; [delete] of
    a key that is not indexed returns [false] and changes nothing; and a
    second [delete] of the same key returns [false]. *)
Theorem C9_delete
    (cap : Z) (ttlSeconds : option Z) (ops : list Op) (k : string) :
  let c := run (constructor cap ttlSeconds) ops in
  (∀ l, cache c !! k = Some l →
     (delete k c).1 = true ∧
     cache (delete k c).2 = base.delete k (cache c) ∧
     S (base.size (cache (delete k c).2)) = base.size (cache c) ∧
     size (getStats (delete k c).2) = size (getStats c) - 1 ∧
     ∀ ls, recency_list c ls →
       ∃ l1 l2, ls = l1 ++ l :: l2 ∧ recency_list (delete k c).2 (l1 ++ l2)) ∧
  (cache c !! k = None → delete k c = (false, c)) ∧
  (delete k (delete k c).2).1 = false.
Proof.
  intros c. destruct (reachable cap ttlSeconds ops) as (ls & HI & _). fold c in HI.
  split_and!.
  - intros l Hk. split_and!.
    + unfold delete. by rewrite Hk.
    + apply delete_cache.
    + rewrite delete_cache, map_size_delete_Some by eauto.
      destruct (Inv_split _ _ _ _ _ HI Hk) as (l1 & l2 & ? & ? & ? & Hls & _).
      destruct HI as [_ _ _ Hcnt _]. rewrite Hcnt, Hls, length_app. simpl. lia.
    + unfold delete. rewrite Hk. simpl.
      by destruct (links_only_removeNode l c) as (_&_&_&->&_).
    + intros ls' Hls'. by eapply delete_list.
  - intros Hk. unfold delete. by rewrite Hk.
  - unfold delete at 1. by rewrite delete_cache, lookup_delete_eq.
Qed.

(** C10. The expiry test is strict.  An indexed entry whose age equals the
    TTL is live: [get] returns its value and counts a hit, and the sweep
    keeps it.  An entry whose age exceeds the TTL is expired: [get] returns
    [null] and counts a miss, and the sweep removes it.  The sweep facts
    hold in whatever order the expired keys are deleted. *)
Theorem C10_ttl_boundary
    (c : LRUCache) (now : nat → Z) (t : Z) (k : string) (l : ref) (n : CacheNode) :
  cache c !! k = Some l → store c !! l = Some n →
  (now 1%nat - timestamp n = ttl c →
     (get now k c).1 = Some (value n) ∧
     hits (stats (get now k c).2) = hits (stats c) + 1 ∧
     misses (stats (get now k c).2) = misses (stats c) ∧
     cache (get now k c).2 !! k = Some l) ∧
  (now 1%nat - timestamp n > ttl c →
     (get now k c).1 = None ∧
     hits (stats (get now k c).2) = hits (stats c) ∧
     misses (stats (get now k c).2) = misses (stats c) + 1 ∧
     cache (get now k c).2 !! k = None) ∧
  (t - timestamp n = ttl c →
     cache (cleanupExpired t c) !! k = Some l ∧
     ∀ keys, keys ≡ₚ expiredKeys t c → cache (deleteAll keys c) !! k = Some l) ∧
  (t - timestamp n > ttl c →
     cache (cleanupExpired t c) !! k = None ∧
     ∀ keys, keys ≡ₚ expiredKeys t c → cache (deleteAll keys c) !! k = None).
Proof.
  intros Hk Hn. split_and!.
  - intros Heq. rewrite (get_live _ _ _ _ _ Hk Hn) by lia. simpl.
    destruct (links_only_moveToHead l c) as (_ & -> & _ & -> & _). done.
  - intros Hgt. rewrite (get_expired _ _ _ _ _ Hk Hn Hgt). simpl.
    rewrite delete_cache, lookup_delete_eq. unfold delete. rewrite Hk. simpl.
    destruct (links_only_removeNode l c) as (_ & _ & _ & -> & _). done.
  - intros Heq.
    assert (k ∉ expiredKeys t c) as Hout.
    { intros (l' & Hk' & Hx)%elem_of_expiredKeys. simplify_eq.
      unfold expired in Hx. rewrite Hn in Hx. apply Z.gtb_gt in Hx. lia. }
    split.
    + unfold cleanupExpired. by rewrite deletes_cache, decide_False.
    + intros keys Hperm. rewrite deletes_cache, decide_False; [done|].
      by rewrite Hperm.
  - intros Hgt.
    assert (k ∈ expiredKeys t c) as Hin.
    { apply elem_of_expiredKeys. exists l. split; [done|].
      unfold expired. rewrite Hn. by apply Z.gtb_gt. }
    split.
    + unfold cleanupExpired. by rewrite deletes_cache, decide_True.
    + intros keys Hperm. rewrite deletes_cache, decide_True; [done|].
      by rewrite Hperm.
Qed.

(** ** Latency samples *)

Lemma window_length samples : (length (window samples) ≤ 100)%nat.
Proof. unfold window. rewrite length_drop. lia. Qed.

Lemma window_snoc samples t :
  (let r := window samples ++ [t] in if (100 <? length r)%nat then List.tl r else r)
  = window (samples ++ [t]).
Proof.
  unfold window. cbv zeta. rewrite !length_app, length_drop. simpl.
  destruct (decide (length samples < 100)%nat) as [Hlt|Hge].
  - replace (length samples - 100)%nat with 0%nat by lia.
    replace (length samples + 1 - 100)%nat with 0%nat by lia.
    rewrite !drop_0. by rewrite (proj2 (Nat.ltb_ge _ _)) by lia.
  - rewrite (proj2 (Nat.ltb_lt _ _)) by lia.
    replace (length samples + 1 - 100)%nat with (S (length samples - 100)) by lia.
    rewrite drop_app_le by lia.
    destruct (drop (length samples - 100) samples) as [|x xs] eqn:Hd.
    { apply (f_equal length) in Hd. rewrite length_drop in Hd. simpl in Hd. lia. }
    simpl. f_equal.
    replace (S (length samples - 100)) with (length samples - 100 + 1)%nat by lia.
    by rewrite <- drop_drop, Hd.
Qed.

Lemma recordResponseTime_window c samples t :
  responseTimes c = window samples →
  responseTimes (recordResponseTime t c) = window (samples ++ [t]).
Proof. intros Hw. unfold recordResponseTime. simpl. rewrite Hw. apply window_snoc. Qed.

Lemma delete_responseTimes k c : responseTimes (delete k c).2 = responseTimes c.
Proof.
  unfold delete. destruct (cache c !! k) as [l|]; simpl; [|done].
  by destruct (links_only_removeNode l c) as (_&_&_&_&->&_).
Qed.

Lemma removeTail_responseTimes c : responseTimes (removeTail c) = responseTimes c.
Proof.
  unfold removeTail. destruct (tail c) as [t|]; [|done].
  destruct (store c !! t); [|done]. simpl.
  by destruct (links_only_removeNode t c) as (_&_&_&_&->&_).
Qed.

Lemma set_responseTimes now k v c : responseTimes (set now k v c) = responseTimes c.
Proof.
  unfold set. destruct (cache c !! k) as [l|].
  - by destruct (links_only_moveToHead l
      (assign (set_timestamp now) l (assign (set_value v) l c))) as (_&_&_&_&->&_).
  - cbv zeta. set (c1 := upd_stats size_incr _).
    assert (responseTimes c1 = responseTimes c) as Hr.
    { unfold c1. simpl.
      by destruct (links_only_addToHead (length (store c))
        (upd_cache (insert k (length (store c)))
           (upd_store (λ s, s ++ [mkNode k v now None None]) c))) as (_&_&_&_&->&_). }
    destruct (_ >? _); [|done]. by rewrite removeTail_responseTimes.
Qed.

Lemma cleanupExpired_responseTimes now c :
  responseTimes (cleanupExpired now c) = responseTimes c.
Proof.
  unfold cleanupExpired, deleteAll. generalize (expiredKeys now c). intros ks.
  revert c. induction ks as [|k ks IH]; intros c; simpl; [done|].
  by rewrite IH, delete_responseTimes.
Qed.

Lemma get_responseTimes c ls es now k samples :
  Inv c ls es → responseTimes c = window samples →
  responseTimes (get now k c).2 = window (samples ++ [duration c now k]).
Proof.
  intros HI Hw. unfold duration.
  destruct (cache c !! k) as [l|] eqn:Hk.
  - destruct (Inv_split _ _ _ _ _ HI Hk)
      as (l1 & l2 & e & es1 & es2 & _ & _ & _ & He & _).
    unfold holds in He. destruct (store c !! l) as [n|] eqn:Hn; [|done].
    destruct (decide (now 1%nat - timestamp n > ttl c)) as [Hexp|Hlive].
    + rewrite (get_expired _ _ _ _ _ Hk Hn Hexp). simpl.
      apply recordResponseTime_window. simpl. by rewrite delete_responseTimes.
    + rewrite (get_live _ _ _ _ _ Hk Hn) by lia. simpl.
      apply recordResponseTime_window. simpl.
      by destruct (links_only_moveToHead l c) as (_&_&_&_&->&_).
  - rewrite (get_absent _ _ _ Hk). simpl. by apply recordResponseTime_window.
Qed.

Lemma run_responseTimes c ls es ops samples :
  Inv c ls es → responseTimes c = window samples →
  responseTimes (run c ops) = window (recorded c ops samples).
Proof.
  revert c ls es samples.
  induction ops as [|o ops IH]; intros c ls es samples HI Hw; simpl; [done|].
  destruct (step_refines _ _ _ o HI) as (ls1 & HI1).
  eapply IH; [exact HI1|].
  destruct o as [now k|now k v|k| |now]; simpl.
  - by eapply get_responseTimes.
  - by rewrite set_responseTimes.
  - by rewrite delete_responseTimes.
  - done.
  - by rewrite cleanupExpired_responseTimes.
Qed.

Lemma foldl_add_foldr (l : list Z) (a : Z) : foldl Z.add a l = a + foldr Z.add 0 l.
Proof.
  revert a. induction l as [|x l IH]; intros a; simpl; [lia|]. rewrite IH. lia.
Qed.

Lemma calculateAverageResponseTime_mean c :
  calculateAverageResponseTime c = rounded_mean (responseTimes c).
Proof.
  unfold calculateAverageResponseTime, rounded_mean.
  destruct (responseTimes c) as [|x xs]; [done|].
  cbv zeta. rewrite foldl_add_foldr. done.
Qed.

(** C6 (as the code has it). Construction never fails: whatever the
    capacity and the TTL, the constructor validates nothing and returns an
    empty cache that stores the capacity as given and the TTL in
    milliseconds.  With a capacity of zero or less that cache holds no entry
    after any sequence of operations. *)
Theorem C6_constructor_accepts_everything (cap : Z) (ttlSeconds : option Z) :
  ∃ c, new_LRUCache cap ttlSeconds = Returns c ∧
       capacity c = cap ∧ ttl c = default 60 ttlSeconds * 1000 ∧
       cache c = ∅ ∧ recency_list c [] ∧
       hits (getStats c) = 0 ∧ misses (getStats c) = 0 ∧ size (getStats c) = 0 ∧
       responseTimes c = [] ∧
       (cap ≤ 0 → ∀ ops, cache (run c ops) = ∅ ∧ size (getStats (run c ops)) = 0).
Proof.
  exists (constructor cap ttlSeconds). split_and!; try done.
  - split; [done|constructor].
  - intros Hcap ops.
    destruct (reachable cap ttlSeconds ops) as (ls & HI & _).
    pose proof (Inv_length _ _ _ HI) as Hlen.
    pose proof (m_run_length cap (ttl (constructor cap ttlSeconds)) [] ops) as Hm.
    cbn [length] in Hm.
    assert (base.size (cache (run (constructor cap ttlSeconds) ops)) = 0%nat) as Hz by lia.
    split; [by apply map_size_empty_inv|].
    destruct HI as [_ _ _ _ Hsz]. simpl. rewrite Hsz, Hz. done.
Qed.

(** C7 (as the code has it). On any reachable state the window holds the
    durations of the most recent at most 100 [get] calls since the last
    [clear], and nothing else: [set] records no sample.  The reported average
    is the mean of the window, scaled by 100, rounded and scaled back, and it
    is zero when the window is empty. *)
Theorem C7_average_over_get_samples
    (cap : Z) (ttlSeconds : option Z) (ops : list Op) :
  let c0 := constructor cap ttlSeconds in
  let c := run c0 ops in
  responseTimes c = window (recorded c0 ops []) ∧
  (length (responseTimes c) ≤ 100)%nat ∧
  averageResponseTime (getStats c) = rounded_mean (responseTimes c) ∧
  (responseTimes c = [] → averageResponseTime (getStats c) = of_Z 0) ∧
  (∀ now k v, responseTimes (set now k v c) = responseTimes c) ∧
  (∀ now k, responseTimes (get now k c).2 =
            window (recorded c0 ops [] ++ [duration c now k])).
Proof.
  intros c0 c.
  destruct (reachable cap ttlSeconds ops) as (ls & HI & _). fold c0 c in HI.
  assert (responseTimes c = window (recorded c0 ops [])) as Hw.
  { by eapply run_responseTimes; [apply Inv_constructor|]. }
  split_and!.
  - done.
  - rewrite Hw. apply window_length.
  - apply calculateAverageResponseTime_mean.
  - intros Hr. simpl. by rewrite calculateAverageResponseTime_mean, Hr.
  - intros. apply set_responseTimes.
  - intros now k. by eapply get_responseTimes.
Qed.

(** ** Membership in the reference model *)

Lemma find_key_None k es : find_key k es = None → k ∉ ekey <$> es.
Proof.
  unfold find_key. destruct (list_find (has_key k) es) as [[i e]|] eqn:Hf; [done|].
  intros _ (e & -> & He)%list_elem_of_fmap.
  apply list_find_None in Hf. rewrite Forall_forall in Hf. by apply (Hf e).
Qed.

Lemma elem_of_without k es e : e ∈ without k es ↔ e ∈ es ∧ ekey e ≠ k.
Proof. unfold without, has_key. rewrite list_elem_of_filter. tauto. Qed.

Lemma elem_of_removelast {A} (l : list A) x : x ∈ removelast l → x ∈ l.
Proof. intros Hx. by eapply sublist_subseteq; [apply removelast_sublist|]. Qed.

Lemma Inv_stored_iff c ls es k v t :
  Inv c ls es → stored c k v t ↔ mkEntry k v t ∈ es.
Proof.
  intros HI. split.
  - intros (l & Hk & He).
    destruct (Inv_split _ _ _ _ _ HI Hk)
      as (l1 & l2 & e & es1 & es2 & _ & -> & _ & Hh & _).
    unfold holds in Hh. rewrite He in Hh. injection Hh as <-.
    apply elem_of_app. right. left.
  - intros He. apply (Inv_stored _ _ _ _ HI He).
Qed.

Lemma m_get_elem now1 ttl k es e :
  e ∈ (m_get now1 ttl k es).2 → e ∈ es.
Proof.
  unfold m_get. destruct (find_key k es) as [e'|] eqn:Hf; [|done].
  apply find_key_Some in Hf as [_ He'].
  destruct (_ >? _); simpl.
  - by intros [? _]%elem_of_without.
  - intros [->|[? _]%elem_of_without]%elem_of_cons; done.
Qed.

Lemma m_set_elem cap now k v es e :
  e ∈ m_set cap now k v es → e = mkEntry k v now ∨ (e ∈ es ∧ ekey e ≠ k).
Proof.
  unfold m_set. destruct (find_key k es) as [e'|] eqn:Hf.
  - intros [->|He]%elem_of_cons; [by left|]. right. by apply elem_of_without.
  - apply find_key_None in Hf. cbv zeta.
    assert (e ∈ mkEntry k v now :: es → e = mkEntry k v now ∨ e ∈ es ∧ ekey e ≠ k) as Hin.
    { intros [->|He]%elem_of_cons; [by left|]. right. split; [done|].
      intros <-. apply Hf. by apply list_elem_of_fmap_2. }
    destruct (_ >? _); [|done]. intros He%elem_of_removelast. by apply Hin.
Qed.

(** With a capacity of at least one, the entry just written is first. *)
Lemma m_set_head cap now k v es :
  1 ≤ cap →
  ∃ rest, m_set cap now k v es = mkEntry k v now :: rest ∧
          (∀ e, e ∈ rest → e ∈ es ∧ ekey e ≠ k) ∧
          (is_Some (find_key k es) ∨ Z.of_nat (length es) < cap →
           ∀ e, e ∈ es → ekey e ≠ k → e ∈ rest) ∧
          (2 ≤ cap → ∀ e es', es = e :: es' → ekey e ≠ k → e ∈ rest).
Proof.
  intros Hcap. unfold m_set. destruct (find_key k es) as [e'|] eqn:Hf.
  - exists (without k es). split_and!; [done| | |].
    + intros e. apply elem_of_without.
    + intros _ e He Hne. by apply elem_of_without.
    + intros _ e es' -> Hne. apply elem_of_without. split; [left|done].
  - apply find_key_None in Hf. cbv zeta.
    assert (∀ e, e ∈ es → ekey e ≠ k) as Hne.
    { intros e He <-. apply Hf. by apply list_elem_of_fmap_2. }
    destruct (_ >? _) eqn:Hgt.
    + apply Z.gtb_gt in Hgt. simpl in Hgt.
      destruct es as [|e0 es0 _] using rev_ind; [simpl in Hgt; lia|].
      rewrite app_comm_cons, removelast_last. exists es0. split_and!; [done| | |].
      * intros e He.
        assert (e ∈ es0 ++ [e0]) as He' by (apply elem_of_app; by left).
        split; [done|]. by apply Hne.
      * intros [[? ?]|Hlt]; [done|]. lia.
      * intros Hcap2 e es' Heq _.
        destruct es0 as [|e1 es1]; simpl in Heq.
        { rewrite length_app in Hgt. simpl in Hgt. lia. }
        injection Heq as -> _. left.
    + exists es. split_and!; [done| | |]; try done.
      * intros e He. split; [done|]. by apply Hne.
      * intros _ e es' -> _. left.
Qed.

Lemma m_step_elem cap ttl es o e :
  e ∈ m_step cap ttl es o →
  match o with
  | OSet now k v => e = mkEntry k v now ∨ (e ∈ es ∧ ekey e ≠ k)
  | _ => e ∈ es
  end.
Proof.
  destruct o as [now k|now k v|k| |now]; simpl.
  - apply m_get_elem.
  - apply m_set_elem.
  - by intros [? _]%elem_of_without.
  - by intros ?%elem_of_nil.
  - unfold m_sweep. by intros [_ ?]%list_elem_of_filter.
Qed.

(** ** What [get] can return *)

Lemma m_run_last_write cap ttl es ops (w : string → option (T * Z)) :
  (∀ e, e ∈ es → w (ekey e) = Some (evalue e, etimestamp e)) →
  ∀ e, e ∈ m_run cap ttl es ops →
       last_write ops (ekey e) (w (ekey e)) = Some (evalue e, etimestamp e).
Proof.
  revert es w. induction ops as [|o ops IH]; intros es w Hw e He; simpl in *.
  { by apply Hw. }
  pose (w' := λ k0 : string,
          match o with
          | OSet now k' v => if decide (k' = k0) then Some (v, now) else w k0
          | _ => w k0
          end).
  assert (last_write ops (ekey e) (w' (ekey e)) = Some (evalue e, etimestamp e)) as Hl.
  { apply (IH (m_step cap ttl es o) w'); [|done].
    intros e' He'. apply m_step_elem in He'. unfold w'.
    destruct o as [now k|now k v|k| |now]; try by apply Hw.
    destruct He' as [->|[He' Hne]]; simpl.
    - by rewrite decide_True.
    - rewrite decide_False by done. by apply Hw. }
  unfold w' in Hl. by destruct o.
Qed.

(** X1. On any reachable state, a [get] that returns a value returns the
    value of the last [set] of that key in the trace, and that [set] is no
    older than the TTL at the time of the read. *)
Theorem get_returns_last_set
    (cap : Z) (ttlSeconds : option Z) (ops : list Op)
    (now : nat → Z) (k : string) (v : T) :
  let c := run (constructor cap ttlSeconds) ops in
  (get now k c).1 = Some v →
  ∃ t, last_set ops k = Some (v, t) ∧ now 1%nat - t ≤ ttl c.
Proof.
  intros c Hget.
  destruct (reachable cap ttlSeconds ops) as (ls & HI & _). fold c in HI.
  destruct (get_refines _ _ _ now k HI) as (_ & _ & Hres).
  rewrite Hget in Hres. unfold m_get in Hres.
  destruct (find_key k _) as [e|] eqn:Hf; [|done].
  apply find_key_Some in Hf as [Hk He].
  destruct (_ >? _) eqn:Hexp; [done|]. injection Hres as ->.
  exists (etimestamp e). split.
  - pose proof (m_run_last_write cap _ [] ops (λ _, None)
                  ltac:(by intros ? ?%elem_of_nil) e He) as Hw.
    by rewrite Hk in Hw.
  - rewrite Z.gtb_ltb in Hexp. by apply Z.ltb_ge.
Qed.

(** X2. On any reachable state with a capacity of at least one, [set]
    followed by a [get] of the same key within the TTL returns the value just
    written; with a capacity of zero or less the [get] returns [null]. *)
Theorem set_then_get
    (cap : Z) (ttlSeconds : option Z) (ops : list Op)
    (t : Z) (now : nat → Z) (k : string) (v : T) :
  let c := run (constructor cap ttlSeconds) ops in
  (1 ≤ cap → now 1%nat - t ≤ ttl c → (get now k (set t k v c)).1 = Some v) ∧
  (cap ≤ 0 → (get now k (set t k v c)).1 = None).
Proof.
  intros c.
  destruct (reachable cap ttlSeconds ops) as (ls & HI & _). fold c in HI.
  destruct (set_refines _ _ _ t k v HI) as (ls' & HI').
  destruct (get_refines _ _ _ now k HI') as (_ & _ & Hres).
  assert (capacity c = cap) as Hc by apply run_config.
  destruct (set_config t k v c) as [_ Httl].
  rewrite Hres, Httl, Hc. split.
  - intros Hcap Hlive.
    destruct (m_set_head cap t k v (m_run cap (ttl (constructor cap ttlSeconds)) [] ops) Hcap)
      as (rest & -> & Hrest & _).
    unfold m_get.
    pose proof (find_key_present k (mkEntry k v t) [] rest eq_refl
                  ltac:(apply not_elem_of_nil)) as Hf.
    simpl in Hf. rewrite Hf. simpl.
    by rewrite Z.gtb_ltb, (proj2 (Z.ltb_ge _ _)).
  - intros Hcap.
    pose proof (m_run_length cap (ttl (constructor cap ttlSeconds)) []
                  (ops ++ [OSet t k v])) as Hlen.
    unfold m_run in Hlen. rewrite foldl_app in Hlen. simpl in Hlen.
    fold (m_run cap (ttl (constructor cap ttlSeconds)) [] ops) in Hlen.
    destruct (m_set cap t k v _) as [|? ?]; [done|]. simpl in Hlen. lia.
Qed.

(** ** What the operations leave stored *)

Lemma Inv_keys_unique c ls es e1 e2 :
  Inv c ls es → e1 ∈ es → e2 ∈ es → ekey e1 = ekey e2 → e1 = e2.
Proof.
  intros HI H1 H2 Hk.
  destruct (Inv_stored _ _ _ _ HI H1) as (l1 & Hc1 & Hs1).
  destruct (Inv_stored _ _ _ _ HI H2) as (l2 & Hc2 & Hs2).
  rewrite Hk in Hc1. assert (l1 = l2) as -> by congruence.
  rewrite Hs1 in Hs2. destruct e1, e2. by simplify_eq/=.
Qed.

Lemma find_key_live c ls es k :
  Inv c ls es → is_Some (cache c !! k) ↔ is_Some (find_key k es).
Proof.
  intros HI. rewrite (Inv_live _ _ _ k HI). split.
  - intros Hk. destruct (find_key k es) eqn:Hf; [eauto|].
    by apply find_key_None in Hf.
  - intros [e [<- He]%find_key_Some]. by apply list_elem_of_fmap_2.
Qed.

Lemma m_set_no_evict cap now k v es :
  is_Some (find_key k es) ∨ Z.of_nat (length es) < cap →
  m_set cap now k v es = mkEntry k v now :: without k es.
Proof.
  intros Hroom. unfold m_set. destruct (find_key k es) as [e|] eqn:Hf; [done|].
  destruct Hroom as [[? ?]|Hlt]; [done|]. cbv zeta.
  apply find_key_None in Hf. rewrite without_absent by done.
  assert ((Z.of_nat (length (mkEntry k v now :: es)) >? cap) = false) as ->; [|done].
  rewrite Z.gtb_ltb. apply Z.ltb_ge. simpl. lia.
Qed.

Lemma set_stored c ls es t k v :
  Inv c ls es →
  let c' := set t k v c in
  (∀ k' v' t', k' ≠ k → stored c' k' v' t' → stored c k' v' t') ∧
  (∀ v' t', stored c' k v' t' → v' = v ∧ t' = t) ∧
  (is_Some (cache c !! k) ∨ Z.of_nat (base.size (cache c)) < capacity c →
     stored c' k v t ∧
     ∀ k' v' t', k' ≠ k → stored c k' v' t' → stored c' k' v' t').
Proof.
  intros HI c'. destruct (set_refines _ _ _ t k v HI) as (ls' & HI'). fold c' in HI'.
  split_and!.
  - intros k' v' t' Hne. rewrite (Inv_stored_iff _ _ _ _ _ _ HI'),
      (Inv_stored_iff _ _ _ _ _ _ HI).
    intros [?|[? _]]%m_set_elem; [by simplify_eq/=|done].
  - intros v' t'. rewrite (Inv_stored_iff _ _ _ _ _ _ HI').
    intros [?|[_ ?]]%m_set_elem; by simplify_eq/=.
  - intros Hroom.
    assert (m_set (capacity c) t k v es = mkEntry k v t :: without k es) as Hm.
    { apply m_set_no_evict. rewrite <- (find_key_live _ _ _ _ HI).
      by rewrite <- (Inv_length _ _ _ HI). }
    rewrite Hm in HI'. split.
    + apply (Inv_stored_iff _ _ _ _ _ _ HI'). left.
    + intros k' v' t' Hne. rewrite (Inv_stored_iff _ _ _ _ _ _ HI'),
        (Inv_stored_iff _ _ _ _ _ _ HI).
      intros He. right. by apply elem_of_without.
Qed.

Lemma delete_stored c ls es k :
  Inv c ls es →
  let c' := (delete k c).2 in
  (∀ v t, ¬ stored c' k v t) ∧
  (∀ k' v t, k' ≠ k → stored c' k' v t ↔ stored c k' v t).
Proof.
  intros HI c'. destruct (delete_refines _ _ _ k HI) as (ls' & HI' & _).
  fold c' in HI'. simpl in HI'. split.
  - intros v t. rewrite (Inv_stored_iff _ _ _ _ _ _ HI'), elem_of_without.
    by intros [_ ?].
  - intros k' v t Hne. rewrite (Inv_stored_iff _ _ _ _ _ _ HI'),
      (Inv_stored_iff _ _ _ _ _ _ HI), elem_of_without. naive_solver.
Qed.

Lemma get_stored c ls es now k :
  Inv c ls es →
  let r := get now k c in
  (∀ k' v t, k' ≠ k → stored r.2 k' v t ↔ stored c k' v t) ∧
  (∀ v, r.1 = Some v → ∀ k' v' t, stored r.2 k' v' t ↔ stored c k' v' t) ∧
  (r.1 = None → ∀ v t, ¬ stored r.2 k v t).
Proof.
  intros HI r. destruct (get_refines _ _ _ now k HI) as (ls' & HI' & Hres).
  fold r in HI', Hres. unfold m_get in *.
  destruct (find_key k es) as [e|] eqn:Hf.
  - apply find_key_Some in Hf as [Hk He].
    destruct (_ >? _); simpl in *.
    + split_and!.
      * intros k' v t Hne. rewrite (Inv_stored_iff _ _ _ _ _ _ HI'),
          (Inv_stored_iff _ _ _ _ _ _ HI), elem_of_without. naive_solver.
      * intros v Hv. congruence.
      * intros _ v t. rewrite (Inv_stored_iff _ _ _ _ _ _ HI'), elem_of_without.
        by intros [_ ?].
    + assert (∀ e', e' ∈ e :: without k es ↔ e' ∈ es) as Hiff.
      { intros e'. rewrite elem_of_cons, elem_of_without. split.
        - intros [->|[? _]]; done.
        - intros He'. destruct (decide (ekey e' = k)) as [Heq|Hne]; [|by right].
          left. apply (Inv_keys_unique _ _ _ _ _ HI He' He). congruence. }
      split_and!.
      * intros k' v t _. by rewrite (Inv_stored_iff _ _ _ _ _ _ HI'),
          (Inv_stored_iff _ _ _ _ _ _ HI), Hiff.
      * intros v _ k' v' t. by rewrite (Inv_stored_iff _ _ _ _ _ _ HI'),
          (Inv_stored_iff _ _ _ _ _ _ HI), Hiff.
      * intros Hn. congruence.
  - simpl in *. split_and!.
    + intros k' v t _. by rewrite (Inv_stored_iff _ _ _ _ _ _ HI'),
        (Inv_stored_iff _ _ _ _ _ _ HI).
    + intros v Hv. congruence.
    + intros _ v t. rewrite (Inv_stored_iff _ _ _ _ _ _ HI').
      intros He. apply find_key_None in Hf. apply Hf.
      by apply (list_elem_of_fmap_2 ekey) in He.
Qed.

Lemma cleanupExpired_stored c ls es now :
  Inv c ls es →
  ∀ k v t, stored (cleanupExpired now c) k v t ↔ stored c k v t ∧ now - t ≤ ttl c.
Proof.
  intros HI k v t. destruct (cleanupExpired_refines _ _ _ now HI) as (ls' & HI').
  rewrite (Inv_stored_iff _ _ _ _ _ _ HI'), (Inv_stored_iff _ _ _ _ _ _ HI).
  unfold m_sweep. rewrite list_elem_of_filter. simpl.
  rewrite Z.gtb_ltb, Z.ltb_ge. tauto.
Qed.

(** ** Counters *)

Lemma removeTail_stats c :
  hits (stats (removeTail c)) = hits (stats c) ∧
  misses (stats (removeTail c)) = misses (stats c).
Proof.
  unfold removeTail. destruct (tail c) as [t|]; [|done].
  destruct (store c !! t); [|done]. simpl.
  by destruct (links_only_removeNode t c) as (_&_&_&->&_).
Qed.

Lemma set_stats now k v c :
  hits (stats (set now k v c)) = hits (stats c) ∧
  misses (stats (set now k v c)) = misses (stats c).
Proof.
  unfold set. destruct (cache c !! k) as [l|].
  - by destruct (links_only_moveToHead l
      (assign (set_timestamp now) l (assign (set_value v) l c))) as (_&_&_&->&_).
  - cbv zeta. set (c1 := upd_stats size_incr _).
    assert (hits (stats c1) = hits (stats c) ∧ misses (stats c1) = misses (stats c))
      as [Hh Hm].
    { unfold c1. simpl.
      by destruct (links_only_addToHead (length (store c))
        (upd_cache (insert k (length (store c)))
           (upd_store (λ s, s ++ [mkNode k v now None None]) c))) as (_&_&_&->&_). }
    destruct (_ >? _); [|done].
    destruct (removeTail_stats c1) as [-> ->]. done.
Qed.

Lemma delete_stats k c :
  hits (stats (delete k c).2) = hits (stats c) ∧
  misses (stats (delete k c).2) = misses (stats c).
Proof.
  unfold delete. destruct (cache c !! k) as [l|]; [|done]. simpl.
  by destruct (links_only_removeNode l c) as (_&_&_&->&_).
Qed.

Lemma cleanupExpired_stats now c :
  hits (stats (cleanupExpired now c)) = hits (stats c) ∧
  misses (stats (cleanupExpired now c)) = misses (stats c).
Proof.
  unfold cleanupExpired, deleteAll. generalize (expiredKeys now c). intros ks.
  revert c. induction ks as [|k ks IH]; intros c; simpl; [done|].
  destruct (IH (delete k c).2) as [-> ->]. apply delete_stats.
Qed.

Lemma get_stats c ls es now k :
  Inv c ls es →
  let r := get now k c in
  hits (stats r.2) = hits (stats c) + match r.1 with Some _ => 1 | None => 0 end ∧
  misses (stats r.2) = misses (stats c) + match r.1 with Some _ => 0 | None => 1 end.
Proof.
  intros HI r. unfold r.
  destruct (cache c !! k) as [l|] eqn:Hk.
  - destruct (Inv_split _ _ _ _ _ HI Hk)
      as (l1 & l2 & e & es1 & es2 & _ & _ & _ & He & _).
    unfold holds in He. destruct (store c !! l) as [n|] eqn:Hn; [|done].
    destruct (decide (now 1%nat - timestamp n > ttl c)) as [Hexp|Hlive].
    + rewrite (get_expired _ _ _ _ _ Hk Hn Hexp). simpl.
      destruct (delete_stats k c) as [-> ->]. lia.
    + rewrite (get_live _ _ _ _ _ Hk Hn) by lia. simpl.
      destruct (links_only_moveToHead l c) as (_&_&_&->&_). lia.
  - rewrite (get_absent _ _ _ Hk). simpl. lia.
Qed.

Lemma run_counters c ls es ops :
  Inv c ls es →
  hits (stats (run c ops)) = hits (stats c) + count_gets true c ops ∧
  misses (stats (run c ops)) = misses (stats c) + count_gets false c ops.
Proof.
  revert c ls es. induction ops as [|o ops IH]; intros c ls es HI; simpl; [lia|].
  destruct (step_refines _ _ _ o HI) as (ls1 & HI1).
  destruct (IH _ _ _ HI1) as [-> ->].
  destruct o as [now k|now k v|k| |now]; simpl.
  - destruct (get_stats _ _ _ now k HI) as [-> ->].
    destruct (get now k c).1; simpl; lia.
  - destruct (set_stats now k v c) as [-> ->]. lia.
  - destruct (delete_stats k c) as [-> ->]. lia.
  - lia.
  - destruct (cleanupExpired_stats now c) as [-> ->]. lia.
Qed.

Lemma count_gets_total c ops :
  count_gets true c ops + count_gets false c ops =
  Z.of_nat (length (filter (λ o, is_get o = true) ops)).
Proof.
  revert c. induction ops as [|o ops IH]; intros c; [done|].
  specialize (IH (step c o)). cbn [count_gets].
  destruct o as [now k|now k v|k| |now];
    [rewrite filter_cons_True by done|rewrite filter_cons_False by done..];
    cbn [length]; [|lia..].
  simpl in IH. destruct (get now k c).1; simpl; lia.
Qed.

(** ** Filling a fresh cache *)

Lemma m_run_app cap ttl es ops1 ops2 :
  m_run cap ttl es (ops1 ++ ops2) = m_run cap ttl (m_run cap ttl es ops1) ops2.
Proof. apply foldl_app. Qed.

Lemma run_app c ops1 ops2 : run c (ops1 ++ ops2) = run (run c ops1) ops2.
Proof. apply foldl_app. Qed.

Lemma removelast_take {A} (l : list A) m :
  (S m ≤ length l)%nat → removelast (take (S m) l) = take m l.
Proof.
  intros Hm. destruct (lookup_lt_is_Some_2 l m ltac:(lia)) as [x Hx].
  by rewrite (take_S_r _ _ _ Hx), removelast_last.
Qed.

Lemma m_run_sets_distinct cap ttl (calls : list (Z * string * T)) :
  NoDup (calls.*1.*2) →
  m_run cap ttl [] (sets calls) =
  take (Z.to_nat cap) (reverse (call_entry <$> calls)).
Proof.
  induction calls as [|[[t k] v] calls IH] using rev_ind; intros Hnd.
  { simpl. by rewrite reverse_nil, take_nil. }
  rewrite !fmap_app in Hnd. apply NoDup_app in Hnd as (Hnd & Hk & _).
  unfold sets. rewrite fmap_app, m_run_app. fold (sets calls). rewrite IH by done.
  rewrite fmap_app, reverse_app. simpl.
  set (R := reverse (call_entry <$> calls)).
  assert (k ∉ ekey <$> take (Z.to_nat cap) R) as Hfresh.
  { intros (e & -> & He%subseteq_take)%list_elem_of_fmap.
    unfold R in He. apply elem_of_reverse, list_elem_of_fmap in He as (call & -> & Hc).
    eapply (Hk (call_entry call).(ekey)); [|left].
    simpl. apply list_elem_of_fmap. exists call.1. split; [done|].
    by apply list_elem_of_fmap_2. }
  unfold m_set. rewrite find_key_absent by done. cbv zeta.
  change (call_entry (t, k, v)) with (mkEntry k v t).
  destruct (Z.to_nat cap) as [|m] eqn:Hn.
  - rewrite take_0. simpl.
    assert ((Z.of_nat 1 >? cap) = true) as -> by (apply Z.gtb_gt; lia). done.
  - simpl. rewrite length_take.
    destruct (decide (S m ≤ length R)%nat) as [Hfull|Hroom].
    + assert ((Z.of_nat (S (S m `min` length R)) >? cap) = true) as ->.
      { apply Z.gtb_gt. lia. }
      assert (take (S m) R ≠ []) as Hne.
      { intros Heq. apply (f_equal length) in Heq.
        by rewrite length_take, Nat.min_l in Heq by lia. }
      destruct (take (S m) R) as [|x xs] eqn:Hx; [done|].
      rewrite <- Hx, removelast_take by done. done.
    + assert ((Z.of_nat (S (S m `min` length R)) >? cap) = false) as ->.
      { rewrite Z.gtb_ltb. apply Z.ltb_ge. lia. }
      by rewrite !take_ge by lia.
Qed.

(** ** Further properties *)

(** X3. On any reachable state, a [set] writes under its own key only:
    whatever is stored under another key afterwards was stored before; and
    when the key is already present or the cache is not full, the key holds
    the new value and time stamp and every other entry is kept as it was. *)
Theorem set_writes_only_its_key
    (cap : Z) (ttlSeconds : option Z) (ops : list Op) (t : Z) (k : string) (v : T) :
  let c := run (constructor cap ttlSeconds) ops in
  let c' := set t k v c in
  (∀ k' v' t', k' ≠ k → stored c' k' v' t' → stored c k' v' t') ∧
  (∀ v' t', stored c' k v' t' → v' = v ∧ t' = t) ∧
  (is_Some (cache c !! k) ∨ Z.of_nat (base.size (cache c)) < cap →
     stored c' k v t ∧
     ∀ k' v' t', k' ≠ k → stored c k' v' t' → stored c' k' v' t').
Proof.
  intros c c'.
  destruct (reachable cap ttlSeconds ops) as (ls & HI & _). fold c in HI.
  assert (capacity c = cap) as Hc by apply run_config.
  pose proof (set_stored _ _ _ t k v HI) as Hs. by rewrite Hc in Hs.
Qed.

(** X4. On any reachable state, [delete] removes what is stored under its
    key and nothing else, a [get] of the key then returns [null], and
    when the key was present the [set] that follows evicts nothing. *)
Theorem delete_removes_only_its_key
    (cap : Z) (ttlSeconds : option Z) (ops : list Op) (k : string) :
  let c := run (constructor cap ttlSeconds) ops in
  let c' := (delete k c).2 in
  (∀ v t, ¬ stored c' k v t) ∧
  (∀ k' v t, k' ≠ k → stored c' k' v t ↔ stored c k' v t) ∧
  (∀ now, (get now k c').1 = None) ∧
  (is_Some (cache c !! k) →
   ∀ t2 k2 v2 k' v' t', k' ≠ k2 → stored c' k' v' t' →
                        stored (set t2 k2 v2 c') k' v' t').
Proof.
  intros c c'.
  destruct (reachable cap ttlSeconds ops) as (ls & HI & _). fold c in HI.
  destruct (delete_stored _ _ _ k HI) as [Hgone Hothers].
  split_and!; try done.
  - intros now. rewrite get_absent; [done|].
    unfold c'. rewrite delete_cache. apply lookup_delete_eq.
  - intros Hk t2 k2 v2 k' v' t' Hne Hst.
    destruct (delete_refines _ _ _ k HI) as (ls' & HI' & _). fold c' in HI'.
    apply (set_stored _ _ _ t2 k2 v2 HI'); [|done..]. right.
    assert (capacity c' = cap) as ->.
    { unfold c'. destruct (delete_config k c) as [-> _]. apply run_config. }
    unfold c'. rewrite delete_cache, map_size_delete_Some by done.
    pose proof (Inv_length _ _ _ HI) as Hlen.
    pose proof (m_run_length cap (ttl (constructor cap ttlSeconds)) [] ops) as Hm.
    cbn [length] in Hm.
    destruct Hk as [l Hk].
    assert (base.size (cache c) ≠ 0%nat) as Hnz.
    { intros Hz. apply map_size_empty_inv in Hz. by rewrite Hz, lookup_empty in Hk. }
    lia.
Qed.

(** X5. On any reachable state, a [get] changes nothing that is stored under
    another key; a [get] that returns a value changes nothing that is stored
    at all, and a [get] that returns [null] leaves nothing stored under its
    key. *)
Theorem get_changes_no_entry
    (cap : Z) (ttlSeconds : option Z) (ops : list Op) (now : nat → Z) (k : string) :
  let c := run (constructor cap ttlSeconds) ops in
  let r := get now k c in
  (∀ k' v t, k' ≠ k → stored r.2 k' v t ↔ stored c k' v t) ∧
  (∀ v, r.1 = Some v → ∀ k' v' t, stored r.2 k' v' t ↔ stored c k' v' t) ∧
  (r.1 = None → ∀ v t, ¬ stored r.2 k v t).
Proof.
  intros c r.
  destruct (reachable cap ttlSeconds ops) as (ls & HI & _). fold c in HI.
  by apply (get_stored _ _ _ now k HI).
Qed.

(** X6. On any reachable state, the sweep keeps exactly the entries that are
    not older than the TTL, with their values and time stamps; the reported
    size follows the index, and the counters and the window of samples are
    untouched. *)
Theorem sweep_removes_exactly_the_expired
    (cap : Z) (ttlSeconds : option Z) (ops : list Op) (now : Z) :
  let c := run (constructor cap ttlSeconds) ops in
  let c' := cleanupExpired now c in
  (∀ k v t, stored c' k v t ↔ stored c k v t ∧ now - t ≤ ttl c) ∧
  size (getStats c') = Z.of_nat (base.size (cache c')) ∧
  hits (getStats c') = hits (getStats c) ∧
  misses (getStats c') = misses (getStats c) ∧
  responseTimes c' = responseTimes c.
Proof.
  intros c c'.
  destruct (reachable cap ttlSeconds ops) as (ls & HI & _). fold c in HI.
  destruct (cleanupExpired_refines _ _ _ now HI) as (ls' & HI').
  split_and!.
  - by apply (cleanupExpired_stored _ _ _ now HI).
  - by destruct HI'.
  - apply cleanupExpired_stats.
  - apply cleanupExpired_stats.
  - apply cleanupExpired_responseTimes.
Qed.

(** X7. After any trace from the constructor, [hits] is the number of [get]
    calls that returned a value and [misses] the number that returned
    [null]; together they count every [get] of the trace, and no other
    operation, [clear] included, changes them. *)
Theorem hits_and_misses_count_the_gets
    (cap : Z) (ttlSeconds : option Z) (ops : list Op) :
  let c0 := constructor cap ttlSeconds in
  let c := run c0 ops in
  hits (getStats c) = count_gets true c0 ops ∧
  misses (getStats c) = count_gets false c0 ops ∧
  hits (getStats c) + misses (getStats c) =
    Z.of_nat (length (filter (λ o, is_get o = true) ops)).
Proof.
  intros c0 c.
  destruct (run_counters c0 [] [] ops (Inv_constructor _ _)) as [Hh Hm].
  fold c in Hh, Hm. simpl in *. rewrite Hh, Hm.
  split_and!; [lia..|]. rewrite <- (count_gets_total c0 ops). lia.
Qed.

(** X8. After [set] calls with pairwise distinct keys on a fresh cache,
    exactly the most recent [capacity] of them are stored, each with the value
    and time stamp of its call (none when the capacity is zero or less). *)
Theorem distinct_sets_keep_the_latest
    (cap : Z) (ttlSeconds : option Z) (calls : list (Z * string * T)) :
  NoDup (calls.*1.*2) →
  let c := run (constructor cap ttlSeconds) (sets calls) in
  (∀ k v t, stored c k v t ↔ (t, k, v) ∈ take (Z.to_nat cap) (reverse calls)) ∧
  base.size (cache c) = (Z.to_nat cap `min` length calls)%nat.
Proof.
  intros Hnd c.
  destruct (reachable cap ttlSeconds (sets calls)) as (ls & HI & _). fold c in HI.
  rewrite m_run_sets_distinct in HI by done. split.
  - intros k v t. rewrite (Inv_stored_iff _ _ _ _ _ _ HI).
    rewrite <- fmap_reverse, <- fmap_take, list_elem_of_fmap. split.
    + intros ([[t' k'] v'] & Heq & Hin). unfold call_entry in Heq. by simplify_eq/=.
    + intros Hin. by exists (t, k, v).
  - rewrite (Inv_length _ _ _ HI), length_take, length_reverse, length_fmap. done.
Qed.

(** X9. After any trace from the constructor, whatever the capacity, the
    reported size is the number of indexed keys, it is not negative, and it
    does not exceed the capacity (or zero, for a capacity below zero). *)
Theorem size_is_bounded_on_every_trace
    (cap : Z) (ttlSeconds : option Z) (ops : list Op) :
  let c := run (constructor cap ttlSeconds) ops in
  size (getStats c) = Z.of_nat (base.size (cache c)) ∧
  0 ≤ size (getStats c) ≤ Z.max cap 0.
Proof.
  intros c.
  destruct (reachable cap ttlSeconds ops) as (ls & HI & _). fold c in HI.
  pose proof (Inv_length _ _ _ HI) as Hlen.
  pose proof (m_run_length cap (ttl (constructor cap ttlSeconds)) [] ops) as Hm.
  cbn [length] in Hm. destruct HI as [_ _ _ _ Hsz]. simpl. rewrite Hsz. lia.
Qed.

(** X10. On any reachable state with a capacity of at least two, the entry
    just written by [set], or just returned by [get], is still stored after
    the next [set] of any other key. *)
Theorem last_used_survives_next_set
    (cap : Z) (ttlSeconds : option Z) (ops : list Op)
    (now : nat → Z) (t t2 : Z) (k k2 : string) (v v2 : T) :
  2 ≤ cap → k2 ≠ k →
  let c := run (constructor cap ttlSeconds) ops in
  stored (set t2 k2 v2 (set t k v c)) k v t ∧
  ((get now k c).1 = Some v →
   ∃ t0, stored c k v t0 ∧ stored (set t2 k2 v2 (get now k c).2) k v t0).
Proof.
  intros Hcap Hne c.
  destruct (reachable cap ttlSeconds ops) as (ls & HI & _). fold c in HI.
  assert (capacity c = cap) as Hc by apply run_config.
  set (es := m_run cap (ttl (constructor cap ttlSeconds)) [] ops) in *.
  split.
  - destruct (set_refines _ _ _ t k v HI) as (ls1 & HI1).
    destruct (set_refines _ _ _ t2 k2 v2 HI1) as (ls2 & HI2).
    destruct (set_config t k v c) as [Hc1 _]. rewrite Hc1, Hc in HI2.
    apply (Inv_stored_iff _ _ _ _ _ _ HI2).
    destruct (m_set_head cap t k v es ltac:(lia)) as (rest & Hm & _). rewrite Hm.
    destruct (m_set_head cap t2 k2 v2 (mkEntry k v t :: rest) ltac:(lia))
      as (rest2 & -> & _ & _ & Hkeep).
    right. apply (Hkeep Hcap (mkEntry k v t) rest); [done|]. simpl. congruence.
  - intros Hget.
    destruct (get_refines _ _ _ now k HI) as (ls1 & HI1 & Hres).
    destruct (set_refines _ _ _ t2 k2 v2 HI1) as (ls2 & HI2).
    destruct (get_config now k c) as [Hc1 _]. rewrite Hc1, Hc in HI2.
    rewrite Hget in Hres. unfold m_get in *.
    destruct (find_key k es) as [e|] eqn:Hf; [|done].
    apply find_key_Some in Hf as [Hk He].
    destruct (_ >? _); [done|]. simpl in *. injection Hres as ->.
    exists (etimestamp e).
    assert (mkEntry k (evalue e) (etimestamp e) = e) as Heq by (destruct e; by simplify_eq/=).
    split.
    + apply (Inv_stored_iff _ _ _ _ _ _ HI). by rewrite Heq.
    + apply (Inv_stored_iff _ _ _ _ _ _ HI2). rewrite Heq.
      destruct (m_set_head cap t2 k2 v2 (e :: without k es) ltac:(lia))
        as (rest2 & -> & _ & _ & Hkeep).
      right. apply (Hkeep Hcap e (without k es)); [done|]. congruence.
Qed.

End cache.

(** ** Concrete runs

    String values, exact rational arithmetic for the average. *)

(** A cache of capacity 2, full after two [set] calls: a third key evicts
    the tail. *)
Lemma C1_capacity_bound_and_lru_eviction_witness :
  let calls := [(0, "a", "x"); (1, "b", "y")] in
  let c := run (constructor (T:=string) (N:=Q) 2 None) (sets calls) in
  1 ≤ 2 ∧ cache c !! "c" = None ∧ Z.of_nat (base.size (cache c)) = 2 ∧
  ∃ t n,
    tail c = Some t ∧ store c !! t = Some n ∧ cache c !! key n = Some t ∧
    cache (set 5 "c" "z" c) =
      <[ "c" := length (store c) ]> (base.delete (key n) (cache c)) ∧
    base.size (cache (set 5 "c" "z" c)) = base.size (cache c) ∧
    ∀ k', is_Some (cache c !! k') → k' ≠ key n →
          (since_use (constructor (T:=string) (N:=Q) 2 None) (sets calls) k' <
           since_use (constructor (T:=string) (N:=Q) 2 None) (sets calls) (key n))%nat.
Proof.
  intros calls c. split; [lia|]. split; [reflexivity|]. split; [reflexivity|].
  apply (proj2 (proj2 (C1_capacity_bound_and_lru_eviction 2 None calls ltac:(lia)))
           5 "c" "z"); reflexivity.
Defined.

(** Two keys written, the older one read again: it is at the head and was
    used more recently than the other. *)
Lemma C2_index_and_list_agree_witness :
  let c0 := constructor (T:=string) (N:=Q) 2 None in
  let ops := [OSet 0 "a" "x"; OSet 1 "b" "y"; OGet (λ _, 2) "a"] in
  let c := run c0 ops in
  head c = Some 0%nat ∧
  store c !! 0%nat = Some (mkNode "a" "x" 0 None (Some 1%nat)) ∧
  is_Some (cache c !! "b") ∧
  (since_use c0 ops "a" < since_use c0 ops "b")%nat.
Proof.
  intros c0 ops c.
  assert (is_Some (cache c !! "b")) as Hb by (exists 1%nat; reflexivity).
  split; [reflexivity|]. split; [reflexivity|]. split; [exact Hb|].
  destruct (C2_index_and_list_agree (T:=string) (N:=Q) 2 None ops)
    as (ls & _ & _ & _ & _ & _ & _ & Hhead & _).
  apply (Hhead 0%nat (mkNode "a" "x" 0 None (Some 1%nat)) eq_refl eq_refl "b" Hb).
  discriminate.
Defined.

Lemma C3_get_promotes_witness :
  let c3 := run (constructor (T:=string) (N:=Q) 3 None) [OSet 0 "A" "a"; OSet 0 "B" "b"; OSet 0 "C" "c"] in
  let c := set 0 "D" "d" (get (λ _, 0) "A" c3).2 in
  "A" ≠ "B" ∧ "A" ≠ "C" ∧ "A" ≠ "D" ∧ "B" ≠ "C" ∧ "B" ≠ "D" ∧ "C" ≠ "D" ∧
  (λ _ : nat, 0) 1%nat - 0 ≤ default 60 None * 1000 ∧
  (get (λ _, 0) "A" c3).1 = Some "a" ∧
  stored c "A" "a" 0 ∧ stored c "C" "c" 0 ∧ stored c "D" "d" 0 ∧
  cache c !! "B" = None.
Proof.
  intros c3 c.
  pose proof (C3_get_promotes (N:=Q) None "A" "B" "C" "D" "a" "b" "c" "d" 0 0 0 0
                (λ _, 0)
                ltac:(discriminate) ltac:(discriminate) ltac:(discriminate)
                ltac:(discriminate) ltac:(discriminate) ltac:(discriminate)
                ltac:(vm_compute; discriminate)) as (H1 & _ & H2 & H3 & H4 & H5).
  split; [discriminate|]. split; [discriminate|]. split; [discriminate|].
  split; [discriminate|]. split; [discriminate|]. split; [discriminate|].
  split; [vm_compute; discriminate|].
  split; [exact H1|]. split; [exact H2|]. split; [exact H3|].
  split; [exact H4|exact H5].
Defined.

(** An entry written at time 0 with a TTL of one second, read at time 2000. *)
Lemma C4_expired_get_is_a_miss_witness :
  let c := run (constructor (T:=string) (N:=Q) 3 (Some 1)) [OSet 0 "K" "v"] in
  let n := mkNode "K" "v" 0 None None in
  cache c !! "K" = Some 0%nat ∧ store c !! 0%nat = Some n ∧
  (λ _ : nat, 2000) 1%nat - timestamp n > ttl c ∧
  (get (λ _, 2000) "K" c).1 = None ∧
  cache (get (λ _, 2000) "K" c).2 = base.delete "K" (cache c).
Proof.
  intros c n. split; [reflexivity|]. split; [reflexivity|]. split; [reflexivity|].
  pose proof (C4_expired_get_is_a_miss (N:=Q) 3 (Some 1) [OSet 0 "K" "v"]
                (λ _, 2000) "K" 0%nat n eq_refl eq_refl eq_refl)
    as (H1 & H2 & _).
  split; assumption.
Defined.

Lemma C5_get_keeps_timestamp_witness :
  let c := set 0 "K" "v" (constructor (T:=string) (N:=Q) 3 (Some 60)) in
  let n := mkNode "K" "v" 0 None None in
  cache c !! "K" = Some 0%nat ∧ store c !! 0%nat = Some n ∧
  (λ _ : nat, 1000) 1%nat - timestamp n ≤ ttl c ∧
  timestamp <$> store (get (λ _, 1000) "K" c).2 !! 0%nat = Some 0.
Proof.
  intros c n. split; [reflexivity|]. split; [reflexivity|].
  split; [vm_compute; discriminate|].
  exact (proj1 (proj2 (proj2
           (C5_get_keeps_timestamp c (λ _, 1000) "K" 0%nat n eq_refl eq_refl
              ltac:(vm_compute; discriminate))))).
Defined.

(** C5, refuted as stated: an entry written at time 0 and read at time 1000
    keeps the time stamp 0; with a TTL of 60 seconds a [get] at time 60500
    finds it expired although it was read 59.5 seconds before. *)
Lemma C5_counterexample :
  let c := set 0 "K" "v" (constructor (T:=string) (N:=Q) 3 (Some 60)) in
  let c' := (get (λ _, 1000) "K" c).2 in
  (get (λ _, 1000) "K" c).1 = Some "v" ∧
  timestamp <$> store c' !! 0%nat = Some 0 ∧
  timestamp <$> store c' !! 0%nat ≠ Some 1000 ∧
  60500 - 1000 ≤ ttl c' ∧
  (get (λ _, 60500) "K" c').1 = None ∧
  cache (cleanupExpired 60500 c') !! "K" = None.
Proof. vm_compute. repeat split; discriminate. Qed.

(** C6, refuted as stated: capacity 0 with a TTL of -1 second is accepted;
    the instance stores both, and a value written to it is never found. *)
Lemma C6_counterexample :
  new_LRUCache (T:=string) (N:=Q) 0 (Some (-1)) ≠ Throws ∧
  ∃ c, new_LRUCache 0 (Some (-1)) = Returns c ∧
       capacity c = 0 ∧ ttl c = -1000 ∧
       cache (set 5 "K" "v" c) = ∅ ∧
       (get (λ _, 5) "K" (set 5 "K" "v" c)).1 = None.
Proof.
  split; [discriminate|]. exists (constructor 0 (Some (-1))).
  vm_compute. repeat split.
Qed.

Lemma C7_average_over_get_samples_witness :
  let c := run (constructor (T:=string) (N:=Q) 3 None) [OSet 5 "K" "v"] in
  responseTimes c = [] ∧ averageResponseTime (getStats c) = of_Z 0.
Proof.
  intros c.
  pose proof (C7_average_over_get_samples (T:=string) (N:=Q) 3 None [OSet 5 "K" "v"])
    as (_ & _ & _ & H & _).
  split; [reflexivity|]. apply H. reflexivity.
Defined.

(** C7, refuted as stated: a [set] leaves the window of samples empty, so the
    reported average stays zero; only the [get] that follows records one. *)
Lemma C7_counterexample :
  let c := set 5 "K" "v" (constructor (T:=string) (N:=Q) 3 None) in
  let clock := λ i : nat, 10 + 7 * Z.of_nat i in
  responseTimes c = [] ∧
  averageResponseTime (getStats c) = 0%Q ∧
  responseTimes (get clock "K" c).2 = [14] ∧
  averageResponseTime (getStats (get clock "K" c).2) = Qmake 1400 100.
Proof. vm_compute. repeat split. Qed.

Lemma C9_delete_witness :
  let c := run (constructor (T:=string) (N:=Q) 3 None) [OSet 0 "a" "x"; OSet 1 "b" "y"] in
  cache c !! "a" = Some 0%nat ∧
  (delete "a" c).1 = true ∧
  S (base.size (cache (delete "a" c).2)) = base.size (cache c) ∧
  cache c !! "z" = None ∧ delete "z" c = (false, c).
Proof.
  intros c.
  pose proof (C9_delete (N:=Q) 3 None [OSet 0 "a" "x"; OSet 1 "b" "y"] "a")
    as (Ha & _ & _).
  pose proof (C9_delete (N:=Q) 3 None [OSet 0 "a" "x"; OSet 1 "b" "y"] "z")
    as (_ & Hz & _).
  destruct (Ha 0%nat eq_refl) as (H1 & _ & H3 & _).
  split; [reflexivity|]. split; [exact H1|]. split; [exact H3|].
  split; [reflexivity|]. apply Hz. reflexivity.
Defined.

(** An entry written at time 0 with a TTL of one second, read and swept at
    time 1000 exactly. *)
Lemma C10_ttl_boundary_witness :
  let c := set 0 "K" "v" (constructor (T:=string) (N:=Q) 3 (Some 1)) in
  let n := mkNode "K" "v" 0 None None in
  cache c !! "K" = Some 0%nat ∧ store c !! 0%nat = Some n ∧
  (λ _ : nat, 1000) 1%nat - timestamp n = ttl c ∧
  (get (λ _, 1000) "K" c).1 = Some "v" ∧
  cache (cleanupExpired 1000 c) !! "K" = Some 0%nat.
Proof.
  intros c n.
  pose proof (C10_ttl_boundary c (λ _, 1000) 1000 "K" 0%nat n eq_refl eq_refl)
    as (Hget & _ & Hsweep & _).
  split; [reflexivity|]. split; [reflexivity|]. split; [reflexivity|].
  split; [apply Hget; reflexivity|apply Hsweep; reflexivity].
Defined.

Lemma C6_constructor_accepts_everything_witness :
  (-1) ≤ 0 ∧
  ∃ c, new_LRUCache (T:=string) (N:=Q) (-1) None = Returns c ∧
       cache (run c [OSet 0 "a" "x"; OGet (λ _, 0) "a"; OSet 1 "b" "y"]) = ∅.
Proof.
  split; [lia|].
  destruct (C6_constructor_accepts_everything (T:=string) (N:=Q) (-1) None)
    as (c & Hc & _ & _ & _ & _ & _ & _ & _ & _ & Hrun).
  exists c. split; [exact Hc|]. apply Hrun. lia.
Defined.

Lemma get_returns_last_set_witness :
  let ops := [OSet 0 "K" "v"; OSet 3 "K" "w"] in
  let c := run (constructor (T:=string) (N:=Q) 3 None) ops in
  (get (λ _, 5) "K" c).1 = Some "w" ∧
  ∃ t, last_set ops "K" = Some ("w", t) ∧ (λ _ : nat, 5) 1%nat - t ≤ ttl c.
Proof.
  intros ops c. split; [reflexivity|].
  apply (get_returns_last_set (N:=Q) 3 None ops (λ _, 5) "K" "w"). reflexivity.
Defined.

Lemma set_then_get_witness :
  let c := run (constructor (T:=string) (N:=Q) 3 (Some 1)) [OSet 0 "a" "x"] in
  1 ≤ 3 ∧ (λ _ : nat, 1500) 1%nat - 500 ≤ ttl c ∧
  (get (λ _, 1500) "K" (set 500 "K" "v" c)).1 = Some "v".
Proof.
  intros c. split; [lia|]. split; [vm_compute; discriminate|].
  apply (proj1 (set_then_get (N:=Q) 3 (Some 1) [OSet 0 "a" "x"] 500 (λ _, 1500) "K" "v"));
    [lia|vm_compute; discriminate].
Defined.

Lemma set_writes_only_its_key_witness :
  let c := run (constructor (T:=string) (N:=Q) 3 None) [OSet 0 "a" "x"] in
  stored c "a" "x" 0 ∧ Z.of_nat (base.size (cache c)) < 3 ∧
  stored (set 1 "b" "y" c) "b" "y" 1 ∧ stored (set 1 "b" "y" c) "a" "x" 0.
Proof.
  intros c.
  assert (stored c "a" "x" 0) as Ha by (exists 0%nat; split; reflexivity).
  assert (Z.of_nat (base.size (cache c)) < 3) as Hroom by (vm_compute; reflexivity).
  destruct (set_writes_only_its_key (N:=Q) 3 None [OSet 0 "a" "x"] 1 "b" "y")
    as (_ & _ & Hkeep).
  destruct (Hkeep (or_intror Hroom)) as [Hb Hothers].
  split; [exact Ha|]. split; [exact Hroom|]. split; [exact Hb|].
  apply Hothers; [discriminate|exact Ha].
Defined.

Lemma delete_removes_only_its_key_witness :
  let c := run (constructor (T:=string) (N:=Q) 2 None)
               [OSet 0 "a" "x"; OSet 1 "b" "y"] in
  let c' := (delete "a" c).2 in
  is_Some (cache c !! "a") ∧ stored c' "b" "y" 1 ∧
  stored (set 2 "c" "z" c') "b" "y" 1.
Proof.
  intros c c'.
  assert (is_Some (cache c !! "a")) as Ha by (exists 0%nat; reflexivity).
  assert (stored c' "b" "y" 1) as Hb by (exists 1%nat; split; reflexivity).
  destruct (delete_removes_only_its_key (N:=Q) 2 None
              [OSet 0 "a" "x"; OSet 1 "b" "y"] "a") as (_ & _ & _ & Hfree).
  split; [exact Ha|]. split; [exact Hb|].
  apply (Hfree Ha 2 "c" "z" "b" "y" 1); [discriminate|exact Hb].
Defined.

Lemma get_changes_no_entry_witness :
  let c := run (constructor (T:=string) (N:=Q) 2 None)
               [OSet 0 "a" "x"; OSet 1 "b" "y"] in
  (get (λ _, 2) "a" c).1 = Some "x" ∧ stored c "b" "y" 1 ∧
  stored (get (λ _, 2) "a" c).2 "b" "y" 1.
Proof.
  intros c.
  assert (stored c "b" "y" 1) as Hb by (exists 1%nat; split; reflexivity).
  destruct (get_changes_no_entry (N:=Q) 2 None [OSet 0 "a" "x"; OSet 1 "b" "y"]
              (λ _, 2) "a") as (_ & Hhit & _).
  split; [reflexivity|]. split; [exact Hb|].
  apply (Hhit "x" eq_refl "b" "y" 1). exact Hb.
Defined.

Lemma distinct_sets_keep_the_latest_witness :
  let calls := [(0, "a", "x"); (1, "b", "y"); (2, "c", "z")] in
  let c := run (constructor (T:=string) (N:=Q) 2 None) (sets calls) in
  NoDup (calls.*1.*2) ∧ base.size (cache c) = 2%nat ∧ stored c "c" "z" 2.
Proof.
  intros calls c.
  assert (NoDup (calls.*1.*2)) as Hnd.
  { apply (bool_decide_unpack _). vm_compute. exact I. }
  destruct (distinct_sets_keep_the_latest (N:=Q) 2 None calls Hnd) as [Hst Hsz].
  split; [exact Hnd|]. split; [exact Hsz|].
  apply Hst. vm_compute. left.
Defined.

Lemma last_used_survives_next_set_witness :
  let c := run (constructor (T:=string) (N:=Q) 2 None) [OSet 0 "b" "y"] in
  2 ≤ 2 ∧ "c" ≠ "a" ∧ stored (set 2 "c" "z" (set 1 "a" "x" c)) "a" "x" 1.
Proof.
  intros c. split; [lia|]. split; [discriminate|].
  apply (proj1 (last_used_survives_next_set (N:=Q) 2 None [OSet 0 "b" "y"]
                  (λ _, 0) 1 2 "a" "c" "x" "z" ltac:(lia) ltac:(discriminate))).
Defined.

End LRU.

(** * The mock user store (backend/dist/services/userService.js)

    [simulateDBCall] and [saveUser] work on the module-level array
    [mockUsers]; the array is passed explicitly.  Their delays and console
    output are left out. *)

Module UserService.

Record User := mkUser {
  id : string;
  name : string;
  email : string;
  createdAt : string
}.

#[export] Instance User_eq_dec : EqDecision User.
Proof. solve_decision. Defined.

Definition mockUsers : list User :=
  [ mkUser "1" "John Doe" "john@example.com" "2023-01-01T00:00:00Z";
    mkUser "2" "Jane Smith" "jane@example.com" "2023-01-02T00:00:00Z";
    mkUser "3" "Bob Johnson" "bob@example.com" "2023-01-03T00:00:00Z";
    mkUser "4" "Alice Brown" "alice@example.com" "2023-01-04T00:00:00Z";
    mkUser "5" "Charlie Wilson" "charlie@example.com" "2023-01-05T00:00:00Z" ].

(** [users.find(u => u.id === userId)]: the first match, if any. *)
Definition find (userId : string) (users : list User) : option User :=
  snd <$> list_find (λ u, id u = userId) users.

(** [users.findIndex(u => u.id === userId)]: the first index, or [-1]. *)
Definition findIndex (userId : string) (users : list User) : Z :=
  match list_find (λ u, id u = userId) users with
  | Some (i, _) => Z.of_nat i
  | None => -1
  end.

(** [simulateDBCall(userId)]: a copy of the user found, or [null]. *)
Definition simulateDBCall (userId : string) (users : list User) : option User :=
  find userId users.

(** [saveUser(user)]: replace the first user with the same id, or append;
    returns a copy of the user and the array as it is afterwards. *)
Definition saveUser (user : User) (users : list User) : User * list User :=
  let existingIndex := findIndex (id user) users in
  (user,
   if 0 <=? existingIndex then <[Z.to_nat existingIndex := user]> users
   else users ++ [user]).

(** ** Proofs *)

Lemma findIndex_found userId users i u :
  list_find (λ u, id u = userId) users = Some (i, u) →
  findIndex userId users = Z.of_nat i ∧ users !! i = Some u ∧ id u = userId ∧
  ∀ j v, users !! j = Some v → (j < i)%nat → id v ≠ userId.
Proof.
  intros Hf. unfold findIndex. rewrite Hf.
  apply list_find_Some in Hf as (Hi & Hu & Hbefore). eauto.
Qed.

Lemma findIndex_none userId users :
  list_find (λ u, id u = userId) users = None →
  findIndex userId users = -1 ∧ ∀ u, u ∈ users → id u ≠ userId.
Proof.
  intros Hf. unfold findIndex. rewrite Hf. split; [done|].
  apply list_find_None in Hf. by rewrite Forall_forall in Hf.
Qed.

Lemma find_insert_first user userId users i u :
  list_find (λ u, id u = id user) users = Some (i, u) →
  find userId (<[i := user]> users) =
  if decide (userId = id user) then Some user else find userId users.
Proof.
  intros Hf. apply list_find_Some in Hf as (Hi & Hu & Hbefore).
  unfold find. destruct (decide (userId = id user)) as [->|Hne].
  - assert (list_find (λ u0, id u0 = id user) (<[i:=user]> users) = Some (i, user))
      as ->; [|done].
    apply list_find_Some. split_and!; [|done|].
    + apply list_lookup_insert_eq. by eapply lookup_lt_Some.
    + intros j v Hj Hlt. rewrite list_lookup_insert_ne in Hj by lia. by eapply Hbefore.
  - f_equal. clear Hbefore. revert i Hi.
    induction users as [|w users IH]; intros i Hi; [done|].
    destruct i as [|i]; simpl in *.
    + injection Hi as ->.
      by rewrite !decide_False by congruence.
    + destruct (decide (id w = userId)); [done|]. by rewrite (IH i Hi).
Qed.

Lemma find_snoc user userId users :
  (∀ u, u ∈ users → id u ≠ id user) →
  find userId (users ++ [user]) =
  if decide (userId = id user) then Some user else find userId users.
Proof.
  intros Hnew. unfold find.
  induction users as [|w users IH]; simpl.
  - destruct (decide (userId = id user)) as [->|Hne].
    + by rewrite decide_True.
    + by rewrite decide_False by congruence.
  - assert (∀ u, u ∈ users → id u ≠ id user) as Hnew' by (intros; apply Hnew; by right).
    specialize (IH Hnew').
    destruct (decide (id w = userId)) as [Hw|Hw].
    + rewrite decide_False; [done|]. intros ->. by apply (Hnew w); [left|].
    + destruct (list_find _ (users ++ [user])) as [[? ?]|],
        (list_find _ users) as [[? ?]|], (decide (userId = id user));
        by simplify_eq/=.
Qed.

(** X11. [saveUser] followed by [simulateDBCall] behaves like an update of a
    map keyed by id: the saved id yields the saved user, every other id
    yields what it yielded before. *)
Theorem save_then_lookup (user : User) (userId : string) (users : list User) :
  (saveUser user users).1 = user ∧
  simulateDBCall userId (saveUser user users).2 =
  if decide (userId = id user) then Some user else simulateDBCall userId users.
Proof.
  split; [done|]. unfold saveUser, simulateDBCall. simpl.
  destruct (list_find (λ u, id u = id user) users) as [[i u]|] eqn:Hf.
  - destruct (findIndex_found _ _ _ _ Hf) as (-> & _).
    rewrite (proj2 (Z.leb_le _ _)) by lia. rewrite Nat2Z.id.
    by eapply find_insert_first.
  - destruct (findIndex_none _ _ Hf) as (-> & Hnew). simpl.
    by apply find_snoc.
Qed.

(** X12. [saveUser] keeps the ids pairwise distinct when they were, replaces
    in place when the id is present (the length does not change) and appends
    otherwise (the length grows by one); saving the same user again changes
    nothing. *)
Theorem save_keeps_ids_distinct (user : User) (users : list User) :
  NoDup (id <$> users) →
  let users' := (saveUser user users).2 in
  NoDup (id <$> users') ∧
  length users' =
    (if decide (id user ∈ id <$> users) then length users else S (length users)) ∧
  (saveUser user users').2 = users'.
Proof.
  intros Hnd users'. unfold users', saveUser. simpl.
  destruct (list_find (λ u, id u = id user) users) as [[i u]|] eqn:Hf.
  - destruct (findIndex_found _ _ _ _ Hf) as (Hidx & Hu & Hid & Hbefore).
    rewrite Hidx, (proj2 (Z.leb_le _ _)) by lia. rewrite Nat2Z.id.
    assert (id <$> <[i:=user]> users = id <$> users) as Hids.
    { rewrite list_fmap_insert. apply list_insert_id.
      rewrite list_lookup_fmap, Hu. simpl. by rewrite Hid. }
    assert (list_find (λ u0, id u0 = id user) (<[i:=user]> users) = Some (i, user)) as Hf'.
    { apply list_find_Some. split_and!; [|done|].
      - apply list_lookup_insert_eq. by eapply lookup_lt_Some.
      - intros j v Hj Hlt. rewrite list_lookup_insert_ne in Hj by lia. by eapply Hbefore. }
    split_and!.
    + by rewrite Hids.
    + rewrite length_insert, decide_True; [done|].
      rewrite <- Hid. apply list_elem_of_fmap_2. by eapply list_elem_of_lookup_2.
    + unfold findIndex. rewrite Hf', (proj2 (Z.leb_le _ _)) by lia.
      rewrite Nat2Z.id. by rewrite list_insert_insert_eq.
  - destruct (findIndex_none _ _ Hf) as (-> & Hnew). simpl.
    assert (id user ∉ id <$> users) as Hfresh.
    { intros (u & Heq & Hu)%list_elem_of_fmap. by apply (Hnew u). }
    assert (list_find (λ u0, id u0 = id user) (users ++ [user])
            = Some (length users, user)) as Hf'.
    { apply list_find_Some. split_and!; [|done|].
      - by apply list_lookup_middle.
      - intros j v Hj Hlt. rewrite lookup_app_l in Hj by done.
        apply Hnew. by eapply list_elem_of_lookup_2. }
    split_and!.
    + rewrite fmap_app. apply NoDup_app. split_and!; [done| |apply NoDup_singleton].
      intros x Hx ->%list_elem_of_singleton. done.
    + rewrite length_app, decide_False by done. simpl. lia.
    + unfold findIndex. rewrite Hf', (proj2 (Z.leb_le _ _)) by lia.
      rewrite Nat2Z.id. rewrite insert_app_r_alt, Nat.sub_diag by done. done.
Qed.

Lemma save_keeps_ids_distinct_witness :
  let user := mkUser "3" "Robert Johnson" "rob@example.com" "2024-01-01T00:00:00Z" in
  NoDup (id <$> mockUsers) ∧
  length (saveUser user mockUsers).2 = 5%nat ∧
  NoDup (id <$> (saveUser user mockUsers).2).
Proof.
  intros user.
  assert (NoDup (id <$> mockUsers)) as Hnd.
  { apply (bool_decide_unpack _). vm_compute. exact I. }
  destruct (save_keeps_ids_distinct user mockUsers Hnd) as (Hnd' & _ & _).
  split; [exact Hnd|]. split; [reflexivity|exact Hnd'].
Defined.

End UserService.

(** * The wrapper around the lru-cache package (backend/src/utils/EnhancedLRUCache.ts)

    The package is not part of the repository: its cache is an abstract state
    [L] with abstract operations, each of which may also depend on an
    environment [E] (the package reads its own clock).  What is proved holds
    for every such package. *)

Module Enhanced.

Section enhanced.
Context {T N : Type} `{Number N}.
Context {L E : Type}.
Variable lru_new : Z → Z → L.
Variable lru_get : E → string → L → option T * L.
Variable lru_set : E → string → T → L → L.
Variable lru_delete : E → string → L → bool * L.
Variable lru_clear : L → L.
Variable lru_size : L → Z.

Record EnhancedLRUCache := mkEnhanced {
  cache : L;
  stats : @LRU.CacheStats N;
  responseTimes : list Z
}.

Definition constructor (capacity : Z) (ttlSeconds : option Z) : EnhancedLRUCache :=
  mkEnhanced (lru_new capacity (default 60 ttlSeconds * 1000))
             (LRU.mkStats 0 0 0 (of_Z 0)) [].

Definition recordResponseTime (time : Z) (c : EnhancedLRUCache) : EnhancedLRUCache :=
  let r := responseTimes c ++ [time] in
  mkEnhanced (cache c) (stats c)
             (if (100 <? length r)%nat then List.tl r else r).

Definition calculateAverageResponseTime (c : EnhancedLRUCache) : N :=
  if (length (responseTimes c) =? 0)%nat then of_Z 0
  else
    let sum := foldl Z.add 0 (responseTimes c) in
    num_div
      (Math_round
         (num_mul (num_div (of_Z sum) (of_Z (Z.of_nat (length (responseTimes c)))))
                  (of_Z 100)))
      (of_Z 100).

(** [get]: [now 0] and [now 1] are the two readings of [Date.now()]. *)
Definition get (env : E) (now : nat → Z) (key : string) (c : EnhancedLRUCache)
    : option T * EnhancedLRUCache :=
  let startTime := now 0%nat in
  let r := lru_get env key (cache c) in
  let stats' :=
    match r.1 with
    | Some _ => LRU.hits_incr (stats c)
    | None => LRU.misses_incr (stats c)
    end in
  (r.1, recordResponseTime (now 1%nat - startTime)
          (mkEnhanced r.2 stats' (responseTimes c))).

Definition set (env : E) (key : string) (value : T) (c : EnhancedLRUCache)
    : EnhancedLRUCache :=
  mkEnhanced (lru_set env key value (cache c)) (stats c) (responseTimes c).

Definition delete (env : E) (key : string) (c : EnhancedLRUCache)
    : bool * EnhancedLRUCache :=
  let r := lru_delete env key (cache c) in
  (r.1, mkEnhanced r.2 (stats c) (responseTimes c)).

Definition clear (c : EnhancedLRUCache) : EnhancedLRUCache :=
  mkEnhanced (lru_clear (cache c)) (stats c) [].

Definition updateStats (c : EnhancedLRUCache) : EnhancedLRUCache :=
  mkEnhanced (cache c)
             (LRU.mkStats (LRU.hits (stats c)) (LRU.misses (stats c))
                          (lru_size (cache c)) (LRU.averageResponseTime (stats c)))
             (responseTimes c).

Definition getStats (c : EnhancedLRUCache) : @LRU.CacheStats N * EnhancedLRUCache :=
  let c := updateStats c in
  (LRU.mkStats (LRU.hits (stats c)) (LRU.misses (stats c)) (LRU.size (stats c))
               (calculateAverageResponseTime c),
   c).

Definition size (c : EnhancedLRUCache) : Z := lru_size (cache c).

(** The calls of a trace; [OTick] is the interval timer calling
    [updateStats]. *)
Inductive Op :=
| OGet (env : E) (now : nat → Z) (k : string)
| OSet (env : E) (k : string) (v : T)
| ODelete (env : E) (k : string)
| OClear
| OGetStats
| OTick.

Definition step (c : EnhancedLRUCache) (o : Op) : EnhancedLRUCache :=
  match o with
  | OGet env now k => (get env now k c).2
  | OSet env k v => set env k v c
  | ODelete env k => (delete env k c).2
  | OClear => clear c
  | OGetStats => (getStats c).2
  | OTick => updateStats c
  end.

Definition run (c : EnhancedLRUCache) (ops : list Op) : EnhancedLRUCache :=
  foldl step c ops.

(** The number of [get] calls of the trace for which the package returned a
    value ([hit = true]) or [undefined] ([hit = false]). *)
Fixpoint count_gets (hit : bool) (c : EnhancedLRUCache) (ops : list Op) : Z :=
  match ops with
  | [] => 0
  | o :: ops' =>
      match o with
      | OGet env now k =>
          match (lru_get env k (cache c)).1, hit with
          | Some _, true | None, false => 1
          | _, _ => 0
          end
      | _ => 0
      end + count_gets hit (step c o) ops'
  end.

Definition is_get (o : Op) : bool :=
  match o with OGet _ _ _ => true | _ => false end.

(** The durations of the [get] calls since the last [clear]. *)
Fixpoint recorded (ops : list Op) (acc : list Z) : list Z :=
  match ops with
  | [] => acc
  | o :: ops' =>
      recorded ops'
        match o with
        | OGet _ now _ => acc ++ [now 1%nat - now 0%nat]
        | OClear => []
        | _ => acc
        end
  end.

(** ** Proofs *)

Lemma enhanced_run_counters c ops :
  LRU.hits (stats (run c ops)) = LRU.hits (stats c) + count_gets true c ops ∧
  LRU.misses (stats (run c ops)) = LRU.misses (stats c) + count_gets false c ops.
Proof.
  revert c. induction ops as [|o ops IH]; intros c; simpl; [lia|].
  destruct (IH (step c o)) as [-> ->].
  destruct o as [env now k|env k v|env k| | |]; simpl; try lia.
  destruct (lru_get env k (cache c)).1; simpl; lia.
Qed.

Lemma enhanced_count_gets_total c ops :
  count_gets true c ops + count_gets false c ops =
  Z.of_nat (length (filter (λ o, is_get o = true) ops)).
Proof.
  revert c. induction ops as [|o ops IH]; intros c; [done|].
  specialize (IH (step c o)). cbn [count_gets].
  destruct o as [env now k|env k v|env k| | |];
    [rewrite filter_cons_True by done|rewrite filter_cons_False by done..];
    cbn [length]; [|lia..].
  destruct (lru_get env k (cache c)).1; lia.
Qed.

Lemma enhanced_run_responseTimes c ops samples :
  responseTimes c = LRU.window samples →
  responseTimes (run c ops) = LRU.window (recorded ops samples).
Proof.
  revert c samples. induction ops as [|o ops IH]; intros c samples Hw; simpl; [done|].
  apply IH. destruct o as [env now k|env k v|env k| | |]; simpl; try done.
  rewrite Hw. apply LRU.window_snoc.
Qed.

(** X13. Whatever the package does, after any trace [hits] is the number of
    [get] calls for which it returned a value and [misses] the number for
    which it returned [undefined]; together they count every [get], and
    [set], [delete], [clear], [getStats] and the timer never change them. *)
Theorem enhanced_hits_and_misses_count_the_gets
    (capacity : Z) (ttlSeconds : option Z) (ops : list Op) :
  let c0 := constructor capacity ttlSeconds in
  let c := run c0 ops in
  LRU.hits (getStats c).1 = count_gets true c0 ops ∧
  LRU.misses (getStats c).1 = count_gets false c0 ops ∧
  LRU.hits (getStats c).1 + LRU.misses (getStats c).1 =
    Z.of_nat (length (filter (λ o, is_get o = true) ops)).
Proof.
  intros c0 c. destruct (enhanced_run_counters c0 ops) as [Hh Hm]. fold c in Hh, Hm.
  simpl in *. rewrite Hh, Hm. split_and!; [lia..|].
  rewrite <- (enhanced_count_gets_total c0 ops). lia.
Qed.

(** X14. Whatever the package does, after any trace the window holds the
    durations of the most recent at most 100 [get] calls since the last
    [clear]; [getStats] reports their rounded mean (zero for an empty
    window) and the size the package reports at that moment. *)
Theorem enhanced_average_over_get_samples
    (capacity : Z) (ttlSeconds : option Z) (ops : list Op) :
  let c := run (constructor capacity ttlSeconds) ops in
  responseTimes c = LRU.window (recorded ops []) ∧
  (length (responseTimes c) ≤ 100)%nat ∧
  LRU.averageResponseTime (getStats c).1 = LRU.rounded_mean (responseTimes c) ∧
  LRU.size (getStats c).1 = size c.
Proof.
  intros c.
  assert (responseTimes c = LRU.window (recorded ops [])) as Hw.
  { by apply enhanced_run_responseTimes. }
  split_and!; [done| |simpl|done].
  - rewrite Hw. apply LRU.window_length.
  - unfold calculateAverageResponseTime, LRU.rounded_mean. simpl.
    destruct (responseTimes c) as [|x xs]; [done|].
    cbv zeta. by rewrite LRU.foldl_add_foldr.
Qed.

End enhanced.
End Enhanced.
